(** * ratelimit-nodejs: the Express rate limiter and its dispatch wrapper

    A shallow embedding of [createExpressLimiter] (the closure
    [rateLimiter] it returns) and of [rateLimit] from [ratelimit.js].

    Modelling conventions.
    - JavaScript numbers that the limiter handles are millisecond
      timestamps ([Date.now()]), millisecond durations and a request
      count; they are integer valued and modelled as [Z].  The one
      fractional quantity, [remainingMs / 1000], is a rational [Q] and
      [Math.ceil] is [Qceiling].
    - [max] is not validated by the code.  [rateLimiter] takes it as an
      integer; [rateLimiter_num] is the same middleware with a rational
      [max], and the two agree on integers ([rateLimiter_num_integer]).
    - The two [Map]s captured by the closure are [gmap]s threaded
      through every call as an explicit state ([Stores]).
    - [Date.now()] is an explicit argument [now] of the middleware.
    - The effect of the middleware on the response is its [Outcome]:
      either [next()] was called or a JSON body was sent with a status. *)

From Stdlib Require Import ZArith QArith Qround Lia.
From stdpp Require Import gmap strings list fin_maps sorting.

Local Open Scope Z_scope.

(** ** JavaScript values read by the dispatch wrapper *)

Inductive JsValue : Type :=
  | JsUndefined
  | JsNull
  | JsBoolean (b : bool)
  | JsNumber (n : Z)
  | JsString (s : string).

#[global] Instance JsValue_eq_dec : EqDecision JsValue.
Proof. solve_decision. Defined.

(** [a === b] on the values above (numbers are integers here, so no NaN). *)
Definition strict_equals (a b : JsValue) : bool := bool_decide (a = b).

(** ** [Math.ceil] and the JavaScript division it is applied to *)

Definition js_div (a b : Z) : Q := (inject_Z a / inject_Z b)%Q.

Definition Math_ceil (q : Q) : Z := Qceiling q.

(** ** The stores and the response *)

(** [requestStore : Map<key, number[]>] and [cooldownStore : Map<key, number>]. *)
Record Stores : Type := mkStores {
  requestStore : gmap string (list Z);
  cooldownStore : gmap string Z
}.

Definition empty_stores : Stores := mkStores ∅ ∅.

(** The object passed to [res.status(statusCode).json(...)]. *)
Record DenyBody : Type := mkDenyBody {
  status : Z;
  body_message : string;
  remainingTime : Z
}.

Inductive Outcome : Type :=
  | Next
  | Json (code : Z) (body : DenyBody).

Definition is_denied (o : Outcome) : bool :=
  match o with Next => false | Json _ _ => true end.

Section Limiter.

(** Express request and response objects; the default [keyGen] reads
    [req.ip]. *)
Context {Request Response : Type}.
Variable ip : Request → string.

(** The [options] object: a missing property is [None] and takes the
    default of the destructuring pattern. *)
Record OptionsObj : Type := mkOptionsObj {
  framework : JsValue;
  opt_max : option Z;
  opt_windowMs : option Z;
  opt_cooldownMs : option Z;
  opt_message : option string;
  opt_statusCode : option Z;
  opt_keyGen : option (Request → string);
  opt_skip : option (Request → Response → bool)
}.

(** The constants bound by the destructuring at the top of
    [createExpressLimiter]. *)
Record Config : Type := mkConfig {
  max : Z;
  windowMs : Z;
  cooldownMs : Z;
  message : string;
  statusCode : Z;
  keyGen : Request → string;
  skip : Request → Response → bool
}.

Definition destructure (options : OptionsObj) : Config :=
  {| max := default 100 (opt_max options);
     windowMs := default 60000 (opt_windowMs options);
     cooldownMs := default 60000 (opt_cooldownMs options);
     message := default "Rate limit exceeded. Please try again later."%string
                        (opt_message options);
     statusCode := default 429 (opt_statusCode options);
     keyGen := default ip (opt_keyGen options);
     skip := default (λ _ _, false) (opt_skip options) |}.

Section Middleware.

Variable c : Config.

(** [res.status(statusCode).json({status, message, remainingTime})] *)
Definition deny (remaining : Z) : Outcome :=
  Json (statusCode c)
       {| status := statusCode c;
          body_message := message c;
          remainingTime := Math_ceil (js_div remaining 1000) |}.

(** [requestStore.get(key).filter(ts => now - ts < windowMs)] *)
Definition prune (now : Z) (l : list Z) : list Z :=
  filter (λ ts, now - ts < windowMs c) l.

(** Lines 54-75: everything after the cooldown check. *)
Definition evaluate (key : string) (now : Z) (st : Stores) : Stores * Outcome :=
  let rs :=
    match requestStore st !! key with
    | Some _ => requestStore st
    | None => <[key := []]> (requestStore st)
    end in
  let timestamps := prune now (default [] (rs !! key)) in
  if decide (max c ≤ Z.of_nat (length timestamps)) then
    let cs :=
      match cooldownStore st !! key with
      | Some _ => cooldownStore st
      | None => <[key := now + cooldownMs c]> (cooldownStore st)
      end in
    let remaining := default 0 (cs !! key) - now in
    (mkStores rs cs, deny remaining)
  else
    (mkStores (<[key := timestamps ++ [now]]> rs) (cooldownStore st), Next).

(** The middleware returned by [createExpressLimiter]. *)
Definition rateLimiter (req : Request) (res : Response) (now : Z) (st : Stores)
  : Stores * Outcome :=
  if skip c req res then (st, Next)
  else
    let key := keyGen c req in
    match cooldownStore st !! key with
    | Some blockedUntil =>
        let remainingMs := blockedUntil - now in
        if decide (0 < remainingMs) then (st, deny remainingMs)
        else
          evaluate key now
            (mkStores (delete key (requestStore st)) (delete key (cooldownStore st)))
    | None => evaluate key now st
    end.

(** A sequence of calls of the middleware, each with the clock value
    [Date.now()] returned during it. *)
Fixpoint run (calls : list (Request * Response * Z)) (st : Stores)
  : Stores * list Outcome :=
  match calls with
  | [] => (st, [])
  | (req, res, now) :: rest =>
      let (st1, o) := rateLimiter req res now st in
      let (st2, os) := run rest st1 in
      (st2, o :: os)
  end.

(** The key's window record, read as [[]] when the key is absent. *)
Definition window (key : string) (st : Stores) : list Z := default [] (requestStore st !! key).

(** Both records of a key removed (lines 49-50). *)
Definition forget (key : string) (st : Stores) : Stores :=
  mkStores (delete key (requestStore st)) (delete key (cooldownStore st)).

(** A call is answered from the cooldown (lines 42-47) when the key has
    a record that lies strictly in the future. *)
Definition cooling (key : string) (now : Z) (st : Stores) : Prop :=
  ∃ blockedUntil, cooldownStore st !! key = Some blockedUntil ∧ now < blockedUntil.

(** The states the closure can be in: those produced from the two fresh
    maps by some sequence of calls. *)
Definition reachable (st : Stores) : Prop := ∃ calls, st = (run calls empty_stores).1.

(** Every stored window holds at most [max] timestamps (none when [max]
    is negative). *)
Definition bounded (st : Stores) : Prop :=
  ∀ k l, requestStore st !! k = Some l → Z.of_nat (length l) ≤ Z.max 0 (max c).

(** *** Sequences of calls seen from one key *)

(** A call counts for [key] when it is not bypassed (line 32) and
    [keyGen] maps its request to [key] (line 34). *)
Definition concerns (key : string) (call : Request * Response * Z) : Prop :=
  skip c call.1.1 call.1.2 = false ∧ keyGen c call.1.1 = key.

#[global] Instance concerns_dec key call : Decision (concerns key call).
Proof. unfold concerns. apply _. Defined.

(** The outcomes, in order, of the calls of a sequence that count for [key]. *)
Fixpoint answers (key : string) (calls : list (Request * Response * Z)) (st : Stores)
  : list Outcome :=
  match calls with
  | [] => []
  | call :: rest =>
      let r := rateLimiter call.1.1 call.1.2 call.2 st in
      (if decide (concerns key call) then [r.2] else []) ++ answers key rest r.1
  end.

(** The clock values of the calls of a sequence that count for [key] and
    were passed on with [next()]. *)
Fixpoint allowed_times (key : string) (calls : list (Request * Response * Z))
    (st : Stores) : list Z :=
  match calls with
  | [] => []
  | call :: rest =>
      let r := rateLimiter call.1.1 call.1.2 call.2 st in
      (if decide (concerns key call ∧ is_denied r.2 = false) then [call.2] else [])
        ++ allowed_times key rest r.1
  end.

(** The clock never runs backwards: it reads at least [T] at the first
    call and does not decrease from one call to the next. *)
Fixpoint clock_from (T : Z) (calls : list (Request * Response * Z)) : Prop :=
  match calls with
  | [] => True
  | call :: rest => T ≤ call.2 ∧ clock_from call.2 rest
  end.

(** The clock value of the last call ([T] when there is none). *)
Fixpoint last_time (T : Z) (calls : list (Request * Response * Z)) : Z :=
  match calls with
  | [] => T
  | call :: rest => last_time call.2 rest
  end.


(** Two states hold the same two records for [key]. *)
Definition same_records (key : string) (st1 st2 : Stores) : Prop :=
  requestStore st1 !! key = requestStore st2 !! key
  ∧ cooldownStore st1 !! key = cooldownStore st2 !! key.

(** The accepted requests of a history that fall in the interval of
    length [windowMs] starting at [a]. *)
Definition within (a : Z) (hist : list Z) : list Z :=
  filter (λ h, a ≤ h ∧ h - a < windowMs c) hist.

(** How the stores of [key] relate, at clock value [T], to the history
    [hist] of its accepted requests: none lies in the future, those still
    inside the window are all in the stored record, and a cooldown record
    ends no earlier than one window after each of them. *)
Definition tracked (key : string) (T : Z) (hist : list Z) (st : Stores) : Prop :=
  Forall (λ h, h ≤ T) hist
  ∧ prune T hist `sublist_of` window key st
  ∧ (∀ b, cooldownStore st !! key = Some b → Forall (λ h, h + windowMs c ≤ b) hist).

(** No interval of length [windowMs] holds more than [max] accepted requests. *)
Definition rate_limited (hist : list Z) : Prop :=
  ∀ a, Z.of_nat (length (within a hist)) ≤ Z.max 0 (max c).


(** A key with a cooldown record has a window record of [max] timestamps
    (an empty one when [max] is negative). *)
Definition blocked_full (st : Stores) : Prop :=
  ∀ k b, cooldownStore st !! k = Some b →
         ∃ l, requestStore st !! k = Some l ∧ Z.of_nat (length l) = Z.max 0 (max c).

(** Every window record is in non-decreasing order and holds no
    timestamp later than [T]. *)
Definition ordered (T : Z) (st : Stores) : Prop :=
  ∀ k l, requestStore st !! k = Some l →
         StronglySorted Z.le l ∧ Forall (λ t, t ≤ T) l.

(** No cooldown record ends later than [cooldownMs] after [T]. *)
Definition capped (T : Z) (st : Stores) : Prop :=
  ∀ k b, cooldownStore st !! k = Some b → b ≤ T + cooldownMs c.


(** *** A threshold that is not an integer *)

(** [max] is not validated, and line 58 compares the integer
    [timestamps.length] with whatever number the options carry.
    [evaluate_num], [rateLimiter_num] and [run_num] are lines 54-75, the
    middleware and a sequence of calls with a rational [max]; the other
    constants are those of [c], whose own [max] is not read. *)
Definition evaluate_num (max_num : Q) (key : string) (now : Z) (st : Stores)
  : Stores * Outcome :=
  let rs :=
    match requestStore st !! key with
    | Some _ => requestStore st
    | None => <[key := []]> (requestStore st)
    end in
  let timestamps := prune now (default [] (rs !! key)) in
  if Qle_bool max_num (inject_Z (Z.of_nat (length timestamps))) then
    let cs :=
      match cooldownStore st !! key with
      | Some _ => cooldownStore st
      | None => <[key := now + cooldownMs c]> (cooldownStore st)
      end in
    let remaining := default 0 (cs !! key) - now in
    (mkStores rs cs, deny remaining)
  else
    (mkStores (<[key := timestamps ++ [now]]> rs) (cooldownStore st), Next).

Definition rateLimiter_num (max_num : Q) (req : Request) (res : Response) (now : Z)
    (st : Stores) : Stores * Outcome :=
  if skip c req res then (st, Next)
  else
    let key := keyGen c req in
    match cooldownStore st !! key with
    | Some blockedUntil =>
        let remainingMs := blockedUntil - now in
        if decide (0 < remainingMs) then (st, deny remainingMs)
        else
          evaluate_num max_num key now
            (mkStores (delete key (requestStore st)) (delete key (cooldownStore st)))
    | None => evaluate_num max_num key now st
    end.

Fixpoint run_num (max_num : Q) (calls : list (Request * Response * Z)) (st : Stores)
  : Stores * list Outcome :=
  match calls with
  | [] => (st, [])
  | (req, res, now) :: rest =>
      let (st1, o) := rateLimiter_num max_num req res now st in
      let (st2, os) := run_num max_num rest st1 in
      (st2, o :: os)
  end.

(** The configuration [c] with the integer threshold [m]. *)
Definition with_max (m : Z) : Config :=
  {| max := m; windowMs := windowMs c; cooldownMs := cooldownMs c;
     message := message c; statusCode := statusCode c;
     keyGen := keyGen c; skip := skip c |}.

(** A number that is an integer. *)
Definition integral (q : Q) : Prop := ∃ m : Z, Qeq q (inject_Z m).


End Middleware.

(** What [createExpressLimiter] returns: the closure [rateLimiter]
    together with the two fresh, empty maps it captures. *)
Record Limiter : Type := mkLimiter {
  middleware : Request → Response → Z → Stores → Stores * Outcome;
  initial : Stores
}.

Definition createExpressLimiter (options : OptionsObj) : Limiter :=
  {| middleware := rateLimiter (destructure options);
     initial := empty_stores |}.

(** [rateLimit] of [ratelimit.js]; falling off the end of the function
    returns [undefined], here [None]. *)
Definition rateLimit (obj : OptionsObj) : option Limiter :=
  if strict_equals (framework obj) (JsString "express")
  then Some (createExpressLimiter obj)
  else None.

End Limiter.

(** ** Concrete instances used in the examples: requests are identified
    with their address, the response object carries nothing. *)

Definition scenario_config : @Config string unit :=
  {| max := 3; windowMs := 1000; cooldownMs := 2000;
     message := "Rate limit exceeded. Please try again later.";
     statusCode := 429;
     keyGen := λ req, req;
     skip := λ _ _, false |}.

Definition at_times (key : string) (ts : list Z) : list (string * unit * Z) :=
  (λ t, (key, tt, t)) <$> ts.

(** The state reached by the first four requests of the worked scenario:
    three accepted requests, then the one that starts the cooldown. *)
Definition scenario_blocked : Stores :=
  (run scenario_config (at_times "K" [0; 100; 200; 300]) empty_stores).1.

(** The state after the three accepted requests. *)
Definition scenario_full : Stores :=
  (run scenario_config (at_times "K" [0; 100; 200]) empty_stores).1.

(** A configuration whose threshold is zero. *)
Definition zero_config : @Config string unit :=
  {| max := 0; windowMs := 1000; cooldownMs := 2000;
     message := "Rate limit exceeded. Please try again later.";
     statusCode := 429;
     keyGen := λ req, req;
     skip := λ _ _, false |}.

(** An options object that selects another framework and sets nothing else. *)
Definition koa_options : @OptionsObj string unit :=
  {| framework := JsString "koa";
     opt_max := None; opt_windowMs := None; opt_cooldownMs := None;
     opt_message := None; opt_statusCode := None;
     opt_keyGen := None; opt_skip := None |}.

Definition express_options : @OptionsObj string unit :=
  {| framework := JsString "express";
     opt_max := Some 3; opt_windowMs := Some 1000; opt_cooldownMs := Some 2000;
     opt_message := None; opt_statusCode := None;
     opt_keyGen := None; opt_skip := None |}.

(** A configuration whose cooldown is shorter than its window. *)
Definition short_cooldown_config : @Config string unit :=
  {| max := 1; windowMs := 1000; cooldownMs := 10;
     message := "Rate limit exceeded. Please try again later.";
     statusCode := 429;
     keyGen := λ req, req;
     skip := λ _ _, false |}.

(** An options object that sets nothing but the framework. *)
Definition bare_options (fw : JsValue) : @OptionsObj string unit :=
  {| framework := fw;
     opt_max := None; opt_windowMs := None; opt_cooldownMs := None;
     opt_message := None; opt_statusCode := None;
     opt_keyGen := None; opt_skip := None |}.

(** One hundred requests from one address, one every half second. *)
Definition hundred_requests : list (string * unit * Z) :=
  (λ i, ("10.0.0.7", tt, 500 * i)) <$> seqZ 0 100.

(** ** Arithmetic of [Math.ceil(remaining / 1000)] *)

Lemma Math_ceil_div (r : Z) : Math_ceil (js_div r 1000) = - ((- r) / 1000).
Proof.
  unfold Math_ceil, js_div, Qceiling, Qfloor. simpl.
  rewrite Z.mul_1_r. reflexivity.
Qed.

(** [Math.ceil(r / 1000)] is the least integer [k] with [r <= 1000 * k]. *)
Lemma Math_ceil_least (r : Z) :
  let k := Math_ceil (js_div r 1000) in
  1000 * (k - 1) < r ≤ 1000 * k.
Proof.
  cbv zeta. rewrite Math_ceil_div.
  pose proof (Z.div_mod (- r) 1000 ltac:(lia)).
  pose proof (Z.mod_pos_bound (- r) 1000 ltac:(lia)).
  lia.
Qed.

Lemma Math_ceil_positive (r : Z) : 0 < r → 1 ≤ Math_ceil (js_div r 1000).
Proof. intros Hr. pose proof (Math_ceil_least r) as H. cbv zeta in H. lia. Qed.

Example ceil_2000 : Math_ceil (js_div 2000 1000) = 2.
Proof. reflexivity. Qed.

Example ceil_1300 : Math_ceil (js_div 1300 1000) = 2.
Proof. reflexivity. Qed.

Example ceil_1 : Math_ceil (js_div 1 1000) = 1.
Proof. reflexivity. Qed.

(** ** The worked scenario of the specification *)

Example scenario_outcomes :
  (run scenario_config (at_times "K" [0; 100; 200; 300; 1000; 2500]) empty_stores).2
  = [Next; Next; Next; deny scenario_config 2000; deny scenario_config 1300; Next].
Proof. vm_compute. reflexivity. Qed.

Example scenario_final_state :
  let st := (run scenario_config (at_times "K" [0; 100; 200; 300; 1000; 2500])
               empty_stores).1 in
  requestStore st !! "K" = Some [2500] ∧ cooldownStore st !! "K" = None.
Proof. vm_compute. split; reflexivity. Qed.

Example scenario_interleaved :
  let r := run scenario_config
             [("A", tt, 0); ("B", tt, 10); ("A", tt, 20); ("B", tt, 30)]
             empty_stores in
  r.2 = [Next; Next; Next; Next]
  ∧ requestStore r.1 !! "A" = Some [0; 20]
  ∧ requestStore r.1 !! "B" = Some [10; 30].
Proof. vm_compute. repeat split; reflexivity. Qed.

(** ** Properties of one call and of sequences of calls *)

Section Properties.

Context {Request Response : Type}.
Variable c : @Config Request Response.

Implicit Types (req : Request) (res : Response) (now : Z) (st : Stores).
Implicit Types (key : string) (calls : list (Request * Response * Z)).

Lemma deny_shift now d : deny c (now + d - now) = deny c d.
Proof. f_equal; f_equal; lia. Qed.

Lemma prune_elem now l t : t ∈ prune c now l ↔ now - t < windowMs c ∧ t ∈ l.
Proof. unfold prune. by rewrite list_elem_of_filter. Qed.

Lemma prune_length now l : (length (prune c now l) ≤ length l)%nat.
Proof. unfold prune. apply length_filter. Qed.

Lemma prune_nil now : prune c now [] = [].
Proof. reflexivity. Qed.

(** Pruning that keeps the length keeps the list. *)
Lemma prune_full now l :
  length (prune c now l) = length l → prune c now l = l.
Proof.
  unfold prune. induction l as [|t l IH]; [done|].
  rewrite filter_cons. case_decide; simpl; intros Hlen.
  - f_equal. apply IH. lia.
  - pose proof (length_filter (λ ts, now - ts < windowMs c) l). lia.
Qed.

Lemma prune_all now l :
  Forall (λ t, now - t < windowMs c) l → prune c now l = l.
Proof.
  unfold prune. induction 1 as [|t l Ht _ IH]; [done|].
  rewrite filter_cons. case_decide; [by f_equal | done].
Qed.

(** [evaluate] for a key without cooldown record, with the two map
    updates written out. *)
Lemma evaluate_no_cooldown key now st :
  cooldownStore st !! key = None →
  evaluate c key now st =
    let timestamps := prune c now (window key st) in
    if decide (max c ≤ Z.of_nat (length timestamps)) then
      (mkStores (match requestStore st !! key with
                 | Some _ => requestStore st
                 | None => <[key := []]> (requestStore st)
                 end)
                (<[key := now + cooldownMs c]> (cooldownStore st)),
       deny c (cooldownMs c))
    else
      (mkStores (<[key := timestamps ++ [now]]> (requestStore st)) (cooldownStore st),
       Next).
Proof.
  intros Hcs. unfold evaluate, window. rewrite Hcs. cbv zeta.
  destruct (requestStore st !! key) as [l|] eqn:Hrs; simpl.
  - rewrite Hrs. simpl. case_decide; [|done].
    rewrite lookup_insert_eq. simpl. by rewrite deny_shift.
  - rewrite !lookup_insert_eq. simpl. case_decide.
    + by rewrite deny_shift.
    + by rewrite insert_insert_eq.
Qed.

(** The three ways a call can go. *)
Lemma rateLimiter_cases req res now st :
  let key := keyGen c req in
  (skip c req res = true ∧ rateLimiter c req res now st = (st, Next))
  ∨ (skip c req res = false
     ∧ ∃ b, cooldownStore st !! key = Some b ∧ now < b
            ∧ rateLimiter c req res now st = (st, deny c (b - now)))
  ∨ (skip c req res = false
     ∧ ∃ b, cooldownStore st !! key = Some b ∧ b ≤ now
            ∧ rateLimiter c req res now st = evaluate c key now (forget key st))
  ∨ (skip c req res = false
     ∧ cooldownStore st !! key = None
     ∧ rateLimiter c req res now st = evaluate c key now st).
Proof.
  cbv zeta. unfold rateLimiter.
  destruct (skip c req res); [by left|right].
  destruct (cooldownStore st !! keyGen c req) as [b|] eqn:Hcs.
  - cbv zeta. case_decide.
    + left. split; [done|]. exists b. split_and!; [done|lia|done].
    + right; left. split; [done|]. exists b. split_and!; [done|lia|done].
  - right; right. done.
Qed.

Lemma forget_cooldown key st : cooldownStore (forget key st) !! key = None.
Proof. apply lookup_delete_eq. Qed.

Lemma forget_window key st : window key (forget key st) = [].
Proof. unfold window, forget. simpl. by rewrite lookup_delete_eq. Qed.

Lemma run_cons req res now calls st :
  run c ((req, res, now) :: calls) st =
    ((run c calls (rateLimiter c req res now st).1).1,
     (rateLimiter c req res now st).2 :: (run c calls (rateLimiter c req res now st).1).2).
Proof.
  simpl. destruct (rateLimiter c req res now st) as [st1 o]. simpl.
  by destruct (run c calls st1).
Qed.

Lemma run_app calls1 calls2 st :
  run c (calls1 ++ calls2) st =
    ((run c calls2 (run c calls1 st).1).1,
     (run c calls1 st).2 ++ (run c calls2 (run c calls1 st).1).2).
Proof.
  revert st. induction calls1 as [|[[req res] now] calls1 IH]; intros st.
  - simpl. by destruct (run c calls2 st).
  - rewrite <- app_comm_cons, !run_cons, IH. done.
Qed.

(** *** Frame of one call *)

Lemma evaluate_other_request key now st k :
  k ≠ key → requestStore (evaluate c key now st).1 !! k = requestStore st !! k.
Proof.
  intros Hk. unfold evaluate. cbv zeta.
  case_decide; simpl.
  - destruct (requestStore st !! key); [done|]. by rewrite lookup_insert_ne.
  - rewrite lookup_insert_ne by done.
    destruct (requestStore st !! key); [done|]. by rewrite lookup_insert_ne.
Qed.

Lemma evaluate_other_cooldown key now st k :
  k ≠ key → cooldownStore (evaluate c key now st).1 !! k = cooldownStore st !! k.
Proof.
  intros Hk. unfold evaluate. cbv zeta.
  case_decide; simpl; [|done].
  destruct (cooldownStore st !! key); [done|]. by rewrite lookup_insert_ne.
Qed.

Lemma rateLimiter_other req res now st k :
  k ≠ keyGen c req →
  requestStore (rateLimiter c req res now st).1 !! k = requestStore st !! k
  ∧ cooldownStore (rateLimiter c req res now st).1 !! k = cooldownStore st !! k.
Proof.
  intros Hk.
  destruct (rateLimiter_cases req res now st)
    as [[_ ->]|[[_ (b & _ & _ & ->)]|[[_ (b & _ & _ & ->)]|(_ & _ & ->)]]]; simpl; try done.
  - rewrite evaluate_other_request, evaluate_other_cooldown by done.
    unfold forget; simpl. by rewrite !lookup_delete_ne.
  - by rewrite evaluate_other_request, evaluate_other_cooldown.
Qed.

(** [evaluate] reads the two stores at [key] only. *)
Lemma evaluate_local key now st1 st2 :
  requestStore st1 !! key = requestStore st2 !! key →
  cooldownStore st1 !! key = cooldownStore st2 !! key →
  (evaluate c key now st1).2 = (evaluate c key now st2).2
  ∧ requestStore (evaluate c key now st1).1 !! key
    = requestStore (evaluate c key now st2).1 !! key
  ∧ cooldownStore (evaluate c key now st1).1 !! key
    = cooldownStore (evaluate c key now st2).1 !! key.
Proof.
  intros Hrs Hcs. unfold evaluate. cbv zeta.
  assert (Hw : ∀ st, default [] (match requestStore st !! key with
                       | Some _ => requestStore st
                       | None => <[key := []]> (requestStore st)
                       end !! key) = window key st).
  { intros st. unfold window. destruct (requestStore st !! key) eqn:E.
    - by rewrite E.
    - by rewrite lookup_insert_eq. }
  assert (Hr : ∀ st, match requestStore st !! key with
                       | Some _ => requestStore st
                       | None => <[key := []]> (requestStore st)
                       end !! key = Some (window key st)).
  { intros st. unfold window. destruct (requestStore st !! key) eqn:E.
    - by rewrite E.
    - by rewrite lookup_insert_eq. }
  assert (Hc : ∀ st, match cooldownStore st !! key with
                       | Some _ => cooldownStore st
                       | None => <[key := now + cooldownMs c]> (cooldownStore st)
                       end !! key
                     = Some (default (now + cooldownMs c) (cooldownStore st !! key))).
  { intros st. destruct (cooldownStore st !! key) eqn:E.
    - by rewrite E.
    - by rewrite lookup_insert_eq. }
  rewrite !Hw. assert (window key st1 = window key st2) as <-.
  { unfold window. by rewrite Hrs. }
  case_decide; simpl.
  - rewrite !Hc, !Hr, Hcs. split_and!; try done. unfold window. by rewrite Hrs.
  - by rewrite !lookup_insert_eq, Hcs.
Qed.

(** C7. Key isolation: a call for key [A = keyGen req] leaves both
    stores' entries of every other key [B] as they were, and its outcome
    and the entries it leaves for [A] are determined by the entries of
    [A] alone (two states that agree on [A] give the same answer, whatever
    they hold for other keys). *)
Theorem C7_key_isolation req res now :
  (∀ st B, B ≠ keyGen c req →
     requestStore (rateLimiter c req res now st).1 !! B = requestStore st !! B
     ∧ cooldownStore (rateLimiter c req res now st).1 !! B = cooldownStore st !! B)
  ∧ (∀ st1 st2,
       requestStore st1 !! keyGen c req = requestStore st2 !! keyGen c req →
       cooldownStore st1 !! keyGen c req = cooldownStore st2 !! keyGen c req →
       (rateLimiter c req res now st1).2 = (rateLimiter c req res now st2).2
       ∧ requestStore (rateLimiter c req res now st1).1 !! keyGen c req
         = requestStore (rateLimiter c req res now st2).1 !! keyGen c req
       ∧ cooldownStore (rateLimiter c req res now st1).1 !! keyGen c req
         = cooldownStore (rateLimiter c req res now st2).1 !! keyGen c req).
Proof.
  split.
  - intros st B HB. by apply rateLimiter_other.
  - intros st1 st2 Hrs Hcs. unfold rateLimiter.
    destruct (skip c req res); [done|]. cbv zeta. rewrite <- Hcs.
    destruct (cooldownStore st1 !! keyGen c req) as [b|] eqn:E.
    + case_decide; simpl.
      * split_and!; [done|done|congruence].
      * apply evaluate_local; simpl; by rewrite !lookup_delete_eq.
    + apply evaluate_local; [done|congruence].
Qed.

(** C6. Every denial carries [remainingTime = ceil((blockedUntil - now) / 1000)]
    for the cooldown record [blockedUntil] the key holds when the call
    returns, and with [cooldownMs >= 1] that integer is at least 1, on the
    active-cooldown path and on the threshold path alike. *)
Theorem C6_remaining_time req res now st code body :
  (rateLimiter c req res now st).2 = Json code body →
  ∃ blockedUntil,
    cooldownStore (rateLimiter c req res now st).1 !! keyGen c req = Some blockedUntil
    ∧ remainingTime body = Math_ceil (js_div (blockedUntil - now) 1000)
    ∧ (1 ≤ cooldownMs c → 1 ≤ remainingTime body).
Proof.
  destruct (rateLimiter_cases req res now st)
    as [[_ ->]|[[_ (b & Hb & Hlt & ->)]|[[_ (b & Hb & Hle & ->)]|(_ & Hb & ->)]]];
    simpl.
  - done.
  - intros [= <- <-]. exists b. simpl. split_and!; [done|done|].
    intros _. apply Math_ceil_positive. lia.
  - rewrite evaluate_no_cooldown by apply forget_cooldown. cbv zeta.
    case_decide; simpl; [|done].
    intros [= <- <-]. exists (now + cooldownMs c). simpl.
    rewrite lookup_insert_eq. split_and!; [done|f_equal; f_equal; lia|].
    intros Hcd. apply Math_ceil_positive. lia.
  - rewrite evaluate_no_cooldown by done. cbv zeta.
    case_decide; simpl; [|done].
    intros [= <- <-]. exists (now + cooldownMs c). simpl.
    rewrite lookup_insert_eq. split_and!; [done|f_equal; f_equal; lia|].
    intros Hcd. apply Math_ceil_positive. lia.
Qed.

(** One call for a key whose cooldown lies in the future changes nothing. *)
Lemma rateLimiter_cooling req res now st b :
  cooldownStore st !! keyGen c req = Some b → now < b →
  (rateLimiter c req res now st).1 = st
  ∧ (skip c req res = false → (rateLimiter c req res now st).2 = deny c (b - now)).
Proof.
  intros Hb Hlt. unfold rateLimiter.
  destruct (skip c req res); [done|]. rewrite Hb. cbv zeta.
  case_decide; [done|lia].
Qed.

(** C3. While a key holds a cooldown record [blockedUntil], a call for
    that key at a time [now < blockedUntil] returns the stores exactly as
    it found them (no pruning, no append, nothing for any key) and, unless
    bypassed, answers with the denial computed from that record; and over
    any sequence of calls in which every call for the key comes before
    [blockedUntil], the stored [blockedUntil] stays the same. *)
Theorem C3_cooldown_not_extended key blockedUntil st :
  cooldownStore st !! key = Some blockedUntil →
  (∀ req res now, keyGen c req = key → now < blockedUntil →
     (rateLimiter c req res now st).1 = st
     ∧ (skip c req res = false →
        (rateLimiter c req res now st).2 = deny c (blockedUntil - now)))
  ∧ (∀ calls,
       Forall (λ call, keyGen c call.1.1 = key → call.2 < blockedUntil) calls →
       cooldownStore (run c calls st).1 !! key = Some blockedUntil).
Proof.
  intros Hb. split.
  - intros req res now <- Hlt. by apply rateLimiter_cooling.
  - intros calls. revert st Hb.
    induction calls as [|[[req res] now] calls IH]; intros st Hb Hall; [done|].
    apply Forall_cons in Hall as [Hhd Htl]. simpl in Hhd.
    rewrite run_cons. simpl. apply IH; [|done].
    destruct (decide (keyGen c req = key)) as [Heq|Hne].
    + subst key.
      destruct (rateLimiter_cooling req res now st blockedUntil Hb (Hhd eq_refl))
        as [-> _]. done.
    + destruct (rateLimiter_other req res now st key) as [_ ->]; [congruence|done].
Qed.

(** C2. A call for a key whose cooldown record has [blockedUntil - now <= 0]
    (the exact millisecond [now = blockedUntil] included) behaves as the
    same call on the stores with both records of the key deleted, where the
    key is unseen; with [max >= 1] it calls [next()], leaves the key's
    window as [[now]] and leaves the key without cooldown record. *)
Theorem C2_reset_on_expiry req res now st blockedUntil :
  skip c req res = false →
  cooldownStore st !! keyGen c req = Some blockedUntil →
  blockedUntil - now ≤ 0 →
  let key := keyGen c req in
  requestStore (forget key st) !! key = None
  ∧ cooldownStore (forget key st) !! key = None
  ∧ rateLimiter c req res now st = evaluate c key now (forget key st)
  ∧ rateLimiter c req res now st = rateLimiter c req res now (forget key st)
  ∧ (1 ≤ max c →
     (rateLimiter c req res now st).2 = Next
     ∧ requestStore (rateLimiter c req res now st).1 !! key = Some [now]
     ∧ cooldownStore (rateLimiter c req res now st).1 !! key = None).
Proof.
  intros Hskip Hb Hle key.
  assert (Hcall : rateLimiter c req res now st = evaluate c key now (forget key st)).
  { unfold rateLimiter. rewrite Hskip, Hb. cbv zeta. case_decide; [lia|done]. }
  split_and!.
  - apply lookup_delete_eq.
  - apply forget_cooldown.
  - done.
  - rewrite Hcall. unfold rateLimiter. rewrite Hskip. cbv zeta.
    fold key. by rewrite forget_cooldown.
  - intros Hmax. rewrite Hcall, evaluate_no_cooldown by apply forget_cooldown.
    cbv zeta. rewrite forget_window, prune_nil. simpl.
    case_decide; [lia|]. simpl.
    rewrite lookup_insert_eq. split_and!; [done|done|apply forget_cooldown].
Qed.

(** *** Degenerate threshold *)

Lemma evaluate_nonpositive_max key now st :
  max c ≤ 0 → is_denied (evaluate c key now st).2 = true.
Proof.
  intros Hmax. unfold evaluate. cbv zeta. case_decide; [done|lia].
Qed.

Lemma rateLimiter_nonpositive_max req res now st :
  max c ≤ 0 → skip c req res = false →
  is_denied (rateLimiter c req res now st).2 = true.
Proof.
  intros Hmax Hskip.
  destruct (rateLimiter_cases req res now st)
    as [[? _]|[[_ (b & _ & _ & ->)]|[[_ (b & _ & _ & ->)]|(_ & _ & ->)]]];
    [congruence|done|by apply evaluate_nonpositive_max..].
Qed.

(** C8. With [max <= 0] every call that is not bypassed is denied, the
    first call for a key included: a key without cooldown record gets the
    record [now + cooldownMs] on that call (the empty pruned window already
    has [length >= max]), a key whose cooldown is still running is denied
    from it with the stores untouched, and so every outcome of a sequence
    of non-bypassed calls is a denial. *)
Theorem C8_nonpositive_max_denies_all req res now st :
  max c ≤ 0 → skip c req res = false →
  is_denied (rateLimiter c req res now st).2 = true
  ∧ (cooldownStore st !! keyGen c req = None →
     (rateLimiter c req res now st).2 = deny c (cooldownMs c)
     ∧ cooldownStore (rateLimiter c req res now st).1 !! keyGen c req
       = Some (now + cooldownMs c))
  ∧ (∀ blockedUntil,
       cooldownStore st !! keyGen c req = Some blockedUntil → now < blockedUntil →
       rateLimiter c req res now st = (st, deny c (blockedUntil - now)))
  ∧ (∀ calls st0,
       Forall (λ call, skip c call.1.1 call.1.2 = false) calls →
       Forall (λ o, is_denied o = true) (run c calls st0).2).
Proof.
  intros Hmax Hskip. split_and!.
  - by apply rateLimiter_nonpositive_max.
  - intros Hcs. unfold rateLimiter. rewrite Hskip, Hcs. cbv zeta.
    rewrite evaluate_no_cooldown by done. cbv zeta.
    case_decide; [|lia]. simpl. by rewrite lookup_insert_eq.
  - intros b Hb Hlt. unfold rateLimiter. rewrite Hskip, Hb. cbv zeta.
    case_decide; [done|lia].
  - intros calls. induction calls as [|[[rq rs] t] calls IH]; intros st0 Hall.
    + constructor.
    + apply Forall_cons in Hall as [Hhd Htl]. rewrite run_cons. simpl.
      constructor; [by apply rateLimiter_nonpositive_max | by apply IH].
Qed.

(** *** Denials and the window record *)

(** C10. With [max >= 1] a call that ends in a denial, from the running
    cooldown or from the threshold, returns [requestStore] as it found it;
    a call that is not bypassed and calls [next()] stores the pruned window
    (empty after an expired cooldown) followed by [now]. *)
Theorem C10_denial_keeps_window req res now st :
  1 ≤ max c →
  (is_denied (rateLimiter c req res now st).2 = true →
   requestStore (rateLimiter c req res now st).1 = requestStore st)
  ∧ (skip c req res = false → (rateLimiter c req res now st).2 = Next →
     requestStore (rateLimiter c req res now st).1 !! keyGen c req
     = Some (prune c now (match cooldownStore st !! keyGen c req with
                          | Some _ => []
                          | None => window (keyGen c req) st
                          end) ++ [now])).
Proof.
  intros Hmax.
  destruct (rateLimiter_cases req res now st)
    as [[Hs ->]|[[Hs (b & Hb & Hlt & ->)]|[[Hs (b & Hb & Hle & ->)]|(Hs & Hb & ->)]]];
    simpl.
  - split; [done|congruence].
  - split; [done|]. intros _ [=].
  - rewrite evaluate_no_cooldown by apply forget_cooldown. cbv zeta.
    rewrite forget_window, prune_nil. simpl. case_decide; [lia|]. simpl.
    split; [done|]. intros _ _. by rewrite Hb, lookup_insert_eq.
  - rewrite evaluate_no_cooldown by done. cbv zeta.
    case_decide as Hlen; simpl.
    + split; [|intros _ [=]]. intros _.
      unfold window in Hlen.
      destruct (requestStore st !! keyGen c req); [done|].
      simpl in Hlen. lia.
    + split; [done|]. intros _ _. by rewrite Hb, lookup_insert_eq.
Qed.

(** *** The window bound *)

Lemma empty_bounded : bounded c empty_stores.
Proof. intros k l. unfold empty_stores. simpl. by rewrite lookup_empty. Qed.

Lemma forget_bounded key st : bounded c st → bounded c (forget key st).
Proof.
  intros Hb k l. unfold forget. simpl. intros Hl.
  apply lookup_delete_Some in Hl as [_ Hl]. by apply (Hb k).
Qed.

Lemma evaluate_bounded key now st : bounded c st → bounded c (evaluate c key now st).1.
Proof.
  intros Hb k l. unfold evaluate. cbv zeta.
  assert (Hens : ∀ l0,
            match requestStore st !! key with
            | Some _ => requestStore st
            | None => <[key := []]> (requestStore st)
            end !! k = Some l0 → Z.of_nat (length l0) ≤ Z.max 0 (max c)).
  { intros l0. destruct (requestStore st !! key) eqn:E; [by apply Hb|].
    destruct (decide (k = key)) as [->|Hne].
    - rewrite lookup_insert_eq. intros [= <-]. simpl. lia.
    - rewrite lookup_insert_ne by done. by apply Hb. }
  case_decide as Hlen; simpl; [by apply Hens|].
  destruct (decide (k = key)) as [->|Hne].
  - rewrite lookup_insert_eq. intros [= <-]. rewrite length_app. simpl. lia.
  - rewrite lookup_insert_ne by done. by apply Hens.
Qed.

Lemma rateLimiter_bounded req res now st :
  bounded c st → bounded c (rateLimiter c req res now st).1.
Proof.
  intros Hb.
  destruct (rateLimiter_cases req res now st)
    as [[_ ->]|[[_ (b & _ & _ & ->)]|[[_ (b & _ & _ & ->)]|(_ & _ & ->)]]];
    simpl; [done|done| |by apply evaluate_bounded].
  by apply evaluate_bounded, forget_bounded.
Qed.

Lemma run_bounded calls st : bounded c st → bounded c (run c calls st).1.
Proof.
  revert st. induction calls as [|[[req res] now] calls IH]; intros st Hb; [done|].
  rewrite run_cons. simpl. by apply IH, rateLimiter_bounded.
Qed.

Lemma reachable_bounded st : reachable c st → bounded c st.
Proof. intros [calls ->]. apply run_bounded, empty_bounded. Qed.

(** *** Pruning of the stored record *)

Lemma evaluate_pruned key now st :
  bounded c st → cooldownStore st !! key = None → 0 < windowMs c →
  ∀ l t, requestStore (evaluate c key now st).1 !! key = Some l → t ∈ l →
         now - t < windowMs c.
Proof.
  intros Hb Hcs Hw l t. rewrite evaluate_no_cooldown by done. cbv zeta.
  case_decide as Hlen; simpl.
  - intros Hl Ht.
    assert (l = window key st) as ->.
    { unfold window. destruct (requestStore st !! key) eqn:E.
      - rewrite E in Hl. by injection Hl as <-.
      - rewrite lookup_insert_eq in Hl. by injection Hl as <-. }
    assert (Z.of_nat (length (window key st)) ≤ Z.max 0 (max c)) as Hbound.
    { unfold window. destruct (requestStore st !! key) eqn:E; [by apply (Hb key)|].
      simpl. lia. }
    pose proof (prune_length now (window key st)) as Hle.
    destruct (decide (max c < 0)) as [Hneg|Hnn].
    + destruct (window key st); [by apply elem_of_nil in Ht|simpl in Hbound; lia].
    + rewrite <- (prune_full now (window key st)) in Ht by lia.
      by apply prune_elem in Ht as [? _].
  - rewrite lookup_insert_eq. intros [= <-] Ht.
    apply elem_of_app in Ht as [Ht|Ht].
    + by apply prune_elem in Ht as [? _].
    + apply list_elem_of_singleton in Ht as ->. lia.
Qed.

(** C4, for the calls that reach the pruning step.  In a state the
    closure can reach, with [windowMs > 0], a call that is not bypassed and
    not answered from a running cooldown leaves for its key a window record
    in which every timestamp [t] has [now - t < windowMs], whether it
    allowed or denied the request.  (A call answered from a running
    cooldown returns before the pruning and changes nothing.) *)
Theorem C4_window_pruned_unless_cooling req res now st :
  reachable c st → skip c req res = false → 0 < windowMs c →
  ¬ cooling (keyGen c req) now st →
  ∀ l t, requestStore (rateLimiter c req res now st).1 !! keyGen c req = Some l →
         t ∈ l → now - t < windowMs c.
Proof.
  intros Hreach Hskip Hw Hcool. apply reachable_bounded in Hreach.
  destruct (rateLimiter_cases req res now st)
    as [[? _]|[[_ (b & Hb & Hlt & _)]|[[_ (b & Hb & Hle & ->)]|(_ & Hb & ->)]]].
  - congruence.
  - destruct Hcool. by exists b.
  - apply evaluate_pruned; [by apply forget_bounded|apply forget_cooldown|done].
  - by apply evaluate_pruned.
Qed.

(** *** Exactly [max] requests per window *)

(** A call that is not bypassed, for a key without cooldown record and
    with fewer than [max] timestamps left after pruning, is allowed. *)
Lemma rateLimiter_allows req res now st :
  skip c req res = false →
  cooldownStore st !! keyGen c req = None →
  Z.of_nat (length (prune c now (window (keyGen c req) st))) < max c →
  rateLimiter c req res now st
  = (mkStores (<[keyGen c req := prune c now (window (keyGen c req) st) ++ [now]]>
                 (requestStore st))
              (cooldownStore st),
     Next).
Proof.
  intros Hskip Hcs Hlen. unfold rateLimiter. rewrite Hskip, Hcs. cbv zeta.
  rewrite evaluate_no_cooldown by done. cbv zeta. case_decide; [lia|done].
Qed.

(** A call that is not bypassed, for a key without cooldown record and
    with at least [max] timestamps left after pruning, is denied and
    starts the cooldown. *)
Lemma rateLimiter_blocks req res now st :
  skip c req res = false →
  cooldownStore st !! keyGen c req = None →
  max c ≤ Z.of_nat (length (prune c now (window (keyGen c req) st))) →
  (rateLimiter c req res now st).2 = deny c (cooldownMs c)
  ∧ cooldownStore (rateLimiter c req res now st).1 !! keyGen c req
    = Some (now + cooldownMs c).
Proof.
  intros Hskip Hcs Hlen. unfold rateLimiter. rewrite Hskip, Hcs. cbv zeta.
  rewrite evaluate_no_cooldown by done. cbv zeta. case_decide; [|lia].
  simpl. by rewrite lookup_insert_eq.
Qed.

Lemma run_below_max key calls st :
  Forall (λ call, skip c call.1.1 call.1.2 = false ∧ keyGen c call.1.1 = key) calls →
  cooldownStore st !! key = None →
  Z.of_nat (length (window key st)) + Z.of_nat (length calls) ≤ max c →
  Forall (λ o, o = Next) (run c calls st).2
  ∧ cooldownStore (run c calls st).1 !! key = None.
Proof.
  revert st. induction calls as [|[[req res] now] calls IH]; intros st Hall Hcs Hlen.
  - simpl. by split.
  - apply Forall_cons in Hall as [[Hskip Hkey] Htl]. simpl in Hskip, Hkey.
    subst key. rewrite run_cons. cbn [fst snd].
    pose proof (prune_length now (window (keyGen c req) st)) as Hp.
    simpl in Hlen.
    rewrite rateLimiter_allows by (done || lia). cbn [fst snd].
    destruct (IH (mkStores (<[keyGen c req :=
                     prune c now (window (keyGen c req) st) ++ [now]]> (requestStore st))
                   (cooldownStore st))) as [Hos Hcs']; [done|done| |].
    + unfold window at 1. simpl. rewrite lookup_insert_eq. simpl.
      rewrite length_app. simpl. lia.
    + split; [by constructor|done].
Qed.

Lemma run_in_window key t0 calls st :
  Forall (λ call, skip c call.1.1 call.1.2 = false ∧ keyGen c call.1.1 = key) calls →
  Forall (λ call, t0 ≤ call.2 ∧ call.2 - t0 < windowMs c) calls →
  cooldownStore st !! key = None →
  Forall (λ t, t0 ≤ t) (window key st) →
  Z.of_nat (length (window key st)) + Z.of_nat (length calls) ≤ max c →
  window key (run c calls st).1 = window key st ++ (snd <$> calls).
Proof.
  revert st. induction calls as [|[[req res] now] calls IH];
    intros st Hall Htimes Hcs Hold Hlen.
  - simpl. by rewrite app_nil_r.
  - apply Forall_cons in Hall as [[Hskip Hkey] Htl]. simpl in Hskip, Hkey.
    apply Forall_cons in Htimes as [[Hge Hlt] Htimes]. simpl in Hge, Hlt.
    subst key. rewrite run_cons. cbn [fst snd]. simpl in Hlen.
    assert (Hkeep : prune c now (window (keyGen c req) st) = window (keyGen c req) st).
    { apply prune_all. eapply Forall_impl; [exact Hold|]. simpl. intros t Ht. lia. }
    rewrite rateLimiter_allows by (done || rewrite Hkeep; lia). cbn [fst snd].
    rewrite Hkeep.
    set (st1 := mkStores _ _).
    assert (Hw1 : window (keyGen c req) st1 = window (keyGen c req) st ++ [now]).
    { unfold window at 1, st1. simpl. by rewrite lookup_insert_eq. }
    rewrite IH; try done.
    + rewrite Hw1, <- app_assoc. done.
    + rewrite Hw1. apply Forall_app. split; [done|]. by constructor.
    + rewrite Hw1, length_app. simpl. lia.
Qed.


End Properties.

(** ** The dispatch wrapper *)

Section Dispatch.

Context {Request Response : Type}.
Variable ip : Request → string.

Implicit Types obj : @OptionsObj Request Response.

Lemma strict_equals_true (a b : JsValue) : strict_equals a b = true ↔ a = b.
Proof. unfold strict_equals. apply bool_decide_eq_true. Qed.

(** C9. [rateLimit obj] is the Express limiter built from [obj] when
    [obj.framework === "express"]; for every other value of
    [obj.framework] (another string, [undefined], a number, ...) it is
    [undefined], and no value of the field makes it fail: the function is
    total. *)
Theorem C9_dispatch_by_framework obj :
  (framework obj = JsString "express" →
     rateLimit ip obj = Some (createExpressLimiter ip obj)
     ∧ middleware <$> rateLimit ip obj = Some (rateLimiter (destructure ip obj)))
  ∧ (framework obj ≠ JsString "express" → rateLimit ip obj = None).
Proof.
  unfold rateLimit. split.
  - intros ->. done.
  - intros Hne. destruct (strict_equals (framework obj) (JsString "express")) eqn:E.
    + by apply strict_equals_true in E.
    + done.
Qed.

End Dispatch.

(** ** The theorems at concrete inputs *)



Lemma C2_reset_on_expiry_witness :
  skip scenario_config "K" tt = false
  ∧ cooldownStore scenario_blocked !! "K" = Some 2300
  ∧ 2300 - 2300 ≤ 0
  ∧ (rateLimiter scenario_config "K" tt 2300 scenario_blocked).2 = Next
  ∧ requestStore (rateLimiter scenario_config "K" tt 2300 scenario_blocked).1 !! "K"
    = Some [2300]
  ∧ cooldownStore (rateLimiter scenario_config "K" tt 2300 scenario_blocked).1 !! "K"
    = None.
Proof.
  destruct (C2_reset_on_expiry scenario_config "K" tt 2300 scenario_blocked 2300)
    as (_ & _ & _ & _ & Hfresh); [reflexivity|reflexivity|lia|].
  split_and!; [reflexivity|reflexivity|lia|apply Hfresh; simpl; lia..].
Defined.

Lemma C3_cooldown_not_extended_witness :
  cooldownStore scenario_blocked !! "K" = Some 2300
  ∧ (rateLimiter scenario_config "K" tt 1000 scenario_blocked).1 = scenario_blocked
  ∧ cooldownStore
      (run scenario_config (at_times "K" [1000; 1500; 2299]) scenario_blocked).1 !! "K"
    = Some 2300.
Proof.
  destruct (C3_cooldown_not_extended scenario_config "K" 2300 scenario_blocked)
    as [Hone Hmany]; [reflexivity|].
  split_and!; [reflexivity| |].
  - apply (Hone "K" tt 1000); [reflexivity|lia].
  - apply Hmany. unfold at_times. simpl. repeat constructor; simpl; lia.
Defined.

Lemma C4_window_pruned_unless_cooling_witness :
  reachable scenario_config scenario_full
  ∧ skip scenario_config "K" tt = false
  ∧ 0 < windowMs scenario_config
  ∧ ¬ cooling "K" 300 scenario_full
  ∧ is_denied (rateLimiter scenario_config "K" tt 300 scenario_full).2 = true
  ∧ requestStore (rateLimiter scenario_config "K" tt 300 scenario_full).1 !! "K"
    = Some [0; 100; 200]
  ∧ 300 - 0 < windowMs scenario_config.
Proof.
  assert (Hreach : reachable scenario_config scenario_full).
  { exists (at_times "K" [0; 100; 200]). reflexivity. }
  assert (Hcool : ¬ cooling "K" 300 scenario_full).
  { intros (b & Hb & _). discriminate Hb. }
  split_and!; [exact Hreach|reflexivity|simpl; lia|exact Hcool|reflexivity
              |reflexivity|].
  apply (C4_window_pruned_unless_cooling scenario_config "K" tt 300 scenario_full
           Hreach eq_refl ltac:(simpl; lia) Hcool [0; 100; 200] 0);
    [reflexivity|]. apply list_elem_of_here.
Defined.

Lemma C6_remaining_time_witness :
  (rateLimiter scenario_config "K" tt 1000 scenario_blocked).2
  = Json 429 {| status := 429;
                body_message := "Rate limit exceeded. Please try again later.";
                remainingTime := 2 |}
  ∧ ∃ blockedUntil,
      cooldownStore (rateLimiter scenario_config "K" tt 1000 scenario_blocked).1 !! "K"
      = Some blockedUntil
      ∧ 2 = Math_ceil (js_div (blockedUntil - 1000) 1000)
      ∧ (1 ≤ cooldownMs scenario_config → 1 ≤ 2).
Proof.
  split; [reflexivity|].
  apply (C6_remaining_time scenario_config "K" tt 1000 scenario_blocked 429
           {| status := 429;
              body_message := "Rate limit exceeded. Please try again later.";
              remainingTime := 2 |}).
  reflexivity.
Defined.

Lemma C7_key_isolation_witness :
  "K" ≠ keyGen scenario_config "A"
  ∧ requestStore (rateLimiter scenario_config "A" tt 50 scenario_blocked).1 !! "K"
    = requestStore scenario_blocked !! "K"
  ∧ (rateLimiter scenario_config "A" tt 50 scenario_blocked).2
    = (rateLimiter scenario_config "A" tt 50 empty_stores).2.
Proof.
  destruct (C7_key_isolation scenario_config "A" tt 50) as [Hframe Hlocal].
  split_and!; [discriminate| |].
  - apply (Hframe scenario_blocked "K"). discriminate.
  - apply (Hlocal scenario_blocked empty_stores); reflexivity.
Defined.

Lemma C8_nonpositive_max_denies_all_witness :
  max zero_config ≤ 0
  ∧ skip zero_config "K" tt = false
  ∧ is_denied (rateLimiter zero_config "K" tt 0 empty_stores).2 = true
  ∧ cooldownStore (rateLimiter zero_config "K" tt 0 empty_stores).1 !! "K"
    = Some (0 + cooldownMs zero_config).
Proof.
  destruct (C8_nonpositive_max_denies_all zero_config "K" tt 0 empty_stores)
    as (Hdenied & Hfirst & _); [simpl; lia|reflexivity|].
  split_and!; [simpl; lia|reflexivity|exact Hdenied|].
  apply Hfirst. reflexivity.
Defined.

Lemma C9_dispatch_by_framework_witness :
  framework express_options = JsString "express"
  ∧ framework koa_options ≠ JsString "express"
  ∧ rateLimit id express_options = Some (createExpressLimiter id express_options)
  ∧ rateLimit id koa_options = None.
Proof.
  split_and!; [reflexivity|discriminate| |].
  - apply (C9_dispatch_by_framework id express_options). reflexivity.
  - apply (C9_dispatch_by_framework id koa_options). discriminate.
Defined.

Lemma C10_denial_keeps_window_witness :
  1 ≤ max scenario_config
  ∧ is_denied (rateLimiter scenario_config "K" tt 300 scenario_full).2 = true
  ∧ requestStore (rateLimiter scenario_config "K" tt 300 scenario_full).1
    = requestStore scenario_full.
Proof.
  destruct (C10_denial_keeps_window scenario_config "K" tt 300 scenario_full)
    as [Hdenied _]; [simpl; lia|].
  split_and!; [simpl; lia|reflexivity|].
  apply Hdenied. reflexivity.
Defined.

(** C4 (as stated) fails.  After the three accepted requests at 0, 100
    and 200 and the denial at 300 that starts the cooldown until 2300
    ([max = 3], [windowMs = 1000], [cooldownMs = 2000]), the request at
    1500 is not bypassed and is denied from the running cooldown; the
    stored window is still [[0; 100; 200]], and [1500 - 0 >= windowMs]. *)
Lemma C4_stale_window_during_cooldown :
  reachable scenario_config scenario_blocked
  ∧ skip scenario_config "K" tt = false
  ∧ (rateLimiter scenario_config "K" tt 1500 scenario_blocked).2
    = deny scenario_config 800
  ∧ requestStore (rateLimiter scenario_config "K" tt 1500 scenario_blocked).1 !! "K"
    = Some [0; 100; 200]
  ∧ ¬ (1500 - 0 < windowMs scenario_config).
Proof.
  split_and!; [|reflexivity|reflexivity|reflexivity|simpl; lia].
  exists (at_times "K" [0; 100; 200; 300]). reflexivity.
Qed.

(** ** Sequences of calls: what one key sees *)

Section Sequences.

Context {Request Response : Type}.
Variable c : @Config Request Response.

Implicit Types (req : Request) (res : Response) (now T : Z) (st : Stores).
Implicit Types (key : string) (calls : list (Request * Response * Z)).
Implicit Types (call : Request * Response * Z) (hist : list Z).

Lemma same_records_refl key st : same_records key st st.
Proof. by split. Qed.

Lemma same_records_trans key st1 st2 st3 :
  same_records key st1 st2 → same_records key st2 st3 → same_records key st1 st3.
Proof. intros [? ?] [? ?]. split; congruence. Qed.

Lemma same_records_window key st1 st2 :
  same_records key st1 st2 → window key st1 = window key st2.
Proof. intros [H _]. unfold window. by rewrite H. Qed.

(** The outcome of a call and the records it leaves for its key depend on
    the records of that key only. *)
Lemma rateLimiter_local req res now st1 st2 :
  same_records (keyGen c req) st1 st2 →
  (rateLimiter c req res now st1).2 = (rateLimiter c req res now st2).2
  ∧ same_records (keyGen c req)
      (rateLimiter c req res now st1).1 (rateLimiter c req res now st2).1.
Proof.
  intros [Hrs Hcs]. unfold same_records, rateLimiter.
  destruct (skip c req res); [done|]. cbv zeta. rewrite <- Hcs.
  destruct (cooldownStore st1 !! keyGen c req) as [b|] eqn:E.
  - case_decide; simpl.
    + split_and!; [done|done|congruence].
    + apply evaluate_local; simpl; by rewrite !lookup_delete_eq.
  - apply evaluate_local; [done|congruence].
Qed.

(** A call that does not count for [key] leaves the records of [key]. *)
Lemma rateLimiter_unconcerned key call st :
  ¬ concerns c key call →
  same_records key (rateLimiter c call.1.1 call.1.2 call.2 st).1 st.
Proof.
  intros Hn. destruct call as [[req res] now]. simpl.
  destruct (rateLimiter_cases c req res now st) as [[_ ->]|Hrest];
    [apply same_records_refl|].
  assert (Hs : skip c req res = false) by (destruct Hrest as [[? _]|[[? _]|[? _]]]; done).
  apply rateLimiter_other. intros ->. apply Hn. by split.
Qed.

Lemma answers_run key calls st1 st2 :
  same_records key st1 st2 →
  answers c key calls st1 = (run c (filter (concerns c key) calls) st2).2
  ∧ same_records key (run c calls st1).1 (run c (filter (concerns c key) calls) st2).1.
Proof.
  revert st1 st2. induction calls as [|[[req res] now] calls IH]; intros st1 st2 Hsame.
  - by split.
  - rewrite filter_cons, run_cons. cbn [answers].
    destruct (decide (concerns c key (req, res, now))) as [[Hs Hk]|Hn].
    + simpl in Hs, Hk. subst key. rewrite run_cons. cbn [fst snd].
      destruct (rateLimiter_local req res now st1 st2 Hsame) as [Ho Hsame'].
      destruct (IH _ _ Hsame') as [IHa IHs].
      split; [|done]. simpl. by rewrite Ho, IHa.
    + cbn [fst snd]. apply IH.
      eapply same_records_trans; [|exact Hsame].
      by apply (rateLimiter_unconcerned key (req, res, now)).
Qed.

(** X4. The answers a key receives in a sequence of calls, and the two
    records it is left with, are those of the sequence reduced to the
    calls that count for the key: bypassed calls and calls for other keys,
    however interleaved, make no difference to it. *)
Theorem answers_ignore_other_calls key calls st :
  answers c key calls st = (run c (filter (concerns c key) calls) st).2
  ∧ same_records key (run c calls st).1 (run c (filter (concerns c key) calls) st).1.
Proof. apply answers_run, same_records_refl. Qed.

(** X5. Bypassed calls are invisible to the stores: a sequence of calls
    ends in the same state as the sequence without its bypassed calls. *)
Theorem bypassed_calls_leave_no_trace calls st :
  (run c calls st).1
  = (run c (filter (λ call, skip c call.1.1 call.1.2 = false) calls) st).1.
Proof.
  revert st. induction calls as [|[[req res] now] calls IH]; intros st; [done|].
  rewrite filter_cons, run_cons. cbn [fst snd].
  destruct (decide (skip c req res = false)) as [Hs|Hs].
  - rewrite run_cons. cbn [fst snd]. apply IH.
  - apply not_false_is_true in Hs. unfold rateLimiter at 1. rewrite Hs. apply IH.
Qed.

(** *** The rate that is enforced *)

Lemma filter_sublist_mono {A} (P : A → Prop) `{!∀ x, Decision (P x)} (l1 l2 : list A) :
  l1 `sublist_of` l2 → filter P l1 `sublist_of` filter P l2.
Proof.
  induction 1 as [|x l1 l2 _ IH|x l1 l2 _ IH]; [done| |].
  - rewrite !filter_cons. case_decide; [by constructor|done].
  - rewrite filter_cons. case_decide; [by constructor|done].
Qed.

(** Pruning at a later time prunes at least as much. *)
Lemma prune_later T now hist :
  T ≤ now → prune c now (prune c T hist) = prune c now hist.
Proof.
  intros Hle. unfold prune. apply list_filter_filter_l. intros h. simpl. lia.
Qed.

Lemma prune_none now hist :
  Forall (λ h, h + windowMs c ≤ now) hist → prune c now hist = [].
Proof.
  unfold prune. induction 1 as [|h hist Hh _ IH]; [done|].
  rewrite filter_cons. case_decide; [lia|done].
Qed.

Lemma window_bounded key st :
  bounded c st → Z.of_nat (length (window key st)) ≤ Z.max 0 (max c).
Proof.
  intros Hb. unfold window.
  destruct (requestStore st !! key) as [l|] eqn:E; [by apply (Hb key)|simpl; lia].
Qed.

Lemma tracked_mono key T T' hist st :
  T ≤ T' → tracked c key T hist st → tracked c key T' hist st.
Proof.
  intros Hle (Hpast & Hsub & Hcool). split_and!; [| |done].
  - eapply Forall_impl; [exact Hpast|]. simpl. intros; lia.
  - rewrite <- (prune_later T T') by done.
    etrans; [|exact Hsub]. unfold prune at 1. apply sublist_filter.
Qed.

Lemma tracked_same_records key T hist st st' :
  same_records key st' st → tracked c key T hist st → tracked c key T hist st'.
Proof.
  intros Hsame (Hpast & Hsub & Hcool). split_and!; [done| |].
  - by rewrite (same_records_window key st' st).
  - intros b Hb. apply Hcool. destruct Hsame as [_ <-]. done.
Qed.

(** Lines 54-75 on a key without cooldown record keep the history tracked. *)
Lemma tracked_evaluate key now hist st :
  windowMs c ≤ cooldownMs c →
  Forall (λ h, h ≤ now) hist →
  prune c now hist `sublist_of` window key st →
  cooldownStore st !! key = None →
  tracked c key now
    (hist ++ if is_denied (evaluate c key now st).2 then [] else [now])
    (evaluate c key now st).1.
Proof.
  intros Hwc Hpast Hsub Hcs. rewrite evaluate_no_cooldown by done. cbv zeta.
  case_decide as Hlen; cbn [fst snd is_denied deny].
  - rewrite app_nil_r. split_and!; [done| |].
    + assert (window key
                {| requestStore := match requestStore st !! key with
                                   | Some _ => requestStore st
                                   | None => <[key:=[]]> (requestStore st)
                                   end;
                   cooldownStore := <[key:=now + cooldownMs c]> (cooldownStore st) |}
              = window key st) as ->; [|done].
      unfold window. simpl. destruct (requestStore st !! key) eqn:E.
      * by rewrite E.
      * by rewrite lookup_insert_eq.
    + simpl. rewrite lookup_insert_eq. intros b [= <-].
      eapply Forall_impl; [exact Hpast|]. simpl. intros; lia.
  - split_and!.
    + apply Forall_app. split; [done|]. by constructor.
    + unfold window. simpl. rewrite lookup_insert_eq. simpl.
      unfold prune at 1. rewrite filter_app. apply sublist_app.
      * fold (prune c now hist). rewrite <- (prune_later now now hist) by done.
        unfold prune at 1 3. by apply filter_sublist_mono.
      * apply sublist_filter.
    + simpl. intros b Hb. congruence.
Qed.

Lemma tracked_step key T hist req res now st :
  windowMs c ≤ cooldownMs c → T ≤ now →
  tracked c key T hist st →
  tracked c key now
    (hist ++ if decide (concerns c key (req, res, now)
                        ∧ is_denied (rateLimiter c req res now st).2 = false)
             then [now] else [])
    (rateLimiter c req res now st).1.
Proof.
  intros Hwc Hle Htr.
  destruct (decide (concerns c key (req, res, now))) as [Hc|Hn].
  - assert ((if decide (concerns c key (req, res, now)
                        ∧ is_denied (rateLimiter c req res now st).2 = false)
             then [now] else [])
            = if is_denied (rateLimiter c req res now st).2 then [] else [now]) as ->.
    { destruct (is_denied (rateLimiter c req res now st).2).
      - by rewrite decide_False by (intros [_ ?]; done).
      - by rewrite decide_True. }
    destruct Hc as [Hs Hk]. simpl in Hs, Hk. subst key.
    assert (Hpast : Forall (λ h, h ≤ now) hist).
    { destruct Htr as (Hpast & _). eapply Forall_impl; [exact Hpast|].
      simpl. intros; lia. }
    destruct (rateLimiter_cases c req res now st)
      as [[? _]|[[_ (b & Hb & Hlt & ->)]|[[_ (b & Hb & Hexp & ->)]|(_ & Hb & ->)]]].
    + congruence.
    + cbn [fst snd is_denied deny]. rewrite app_nil_r. by apply (tracked_mono _ T).
    + apply tracked_evaluate; [done|done| |apply forget_cooldown].
      destruct Htr as (_ & _ & Hcool). rewrite prune_none; [apply sublist_nil_l|].
      eapply Forall_impl; [exact (Hcool b Hb)|]. simpl. intros; lia.
    + apply tracked_evaluate; [done|done| |done].
      apply (tracked_mono _ T now) in Htr; [|done]. by destruct Htr as (_ & ? & _).
  - rewrite decide_False by (intros [? _]; done). rewrite app_nil_r.
    apply (tracked_same_records _ _ _ st).
    + by apply (rateLimiter_unconcerned key (req, res, now)).
    + by apply (tracked_mono _ T).
Qed.

Lemma within_in_window a now hist :
  a ≤ now → now - a < windowMs c → within c a hist `sublist_of` prune c now hist.
Proof.
  intros Hle Hlt. unfold within, prune.
  rewrite <- (list_filter_filter_l _ (λ ts, now - ts < windowMs c)).
  - apply sublist_filter.
  - intros h. simpl. lia.
Qed.

Lemma rate_limited_nil : rate_limited c [].
Proof. intros a. unfold within. simpl. lia. Qed.

Lemma rate_limited_snoc key now hist st :
  rate_limited c hist → bounded c st → tracked c key now (hist ++ [now]) st →
  rate_limited c (hist ++ [now]).
Proof.
  intros Hrl Hb (_ & Hsub & _) a.
  destruct (decide (a ≤ now ∧ now - a < windowMs c)) as [[Hle Hlt]|Hout].
  - pose proof (within_in_window a now (hist ++ [now]) Hle Hlt) as Hin.
    apply sublist_length in Hin. apply sublist_length in Hsub.
    pose proof (window_bounded key st Hb). lia.
  - unfold within. rewrite filter_app, filter_cons_False by done.
    rewrite filter_nil, app_nil_r. apply Hrl.
Qed.

Lemma run_tracked key calls T hist st :
  windowMs c ≤ cooldownMs c →
  bounded c st → tracked c key T hist st → rate_limited c hist →
  clock_from T calls →
  tracked c key (last_time T calls) (hist ++ allowed_times c key calls st)
    (run c calls st).1
  ∧ rate_limited c (hist ++ allowed_times c key calls st).
Proof.
  intros Hwc. revert T hist st.
  induction calls as [|[[req res] now] calls IH]; intros T hist st Hb Htr Hrl Hclock.
  - simpl. by rewrite app_nil_r.
  - destruct Hclock as [Hle Hclock]. simpl in Hle, Hclock.
    rewrite run_cons. cbn [allowed_times last_time fst snd].
    pose proof (tracked_step key T hist req res now st Hwc Hle Htr) as Htr'.
    pose proof (rateLimiter_bounded c req res now st Hb) as Hb'.
    rewrite app_assoc. apply IH; [done|done| |done].
    case_decide; [|by rewrite app_nil_r].
    by apply (rate_limited_snoc key now hist (rateLimiter c req res now st).1).
Qed.

(** X1. The rate the limiter enforces, for an integer [max >= 0].  When
    the clock never runs backwards and the cooldown is at least as long as
    the window, then after any sequence of calls made from the two empty
    maps, no interval of length [windowMs] contains more than [max]
    requests of one key that were passed on with [next()] (bypassed
    requests are not counted); in particular the window that ends at any
    time [T] not before the last call holds at most [max] of them. *)
Theorem at_most_max_allowed_per_window key calls T0 :
  0 ≤ max c →
  windowMs c ≤ cooldownMs c →
  clock_from T0 calls →
  (∀ a, Z.of_nat (length (within c a (allowed_times c key calls empty_stores)))
        ≤ max c)
  ∧ (∀ T, last_time T0 calls ≤ T →
       Z.of_nat (length (prune c T (allowed_times c key calls empty_stores)))
       ≤ max c).
Proof.
  intros Hmax Hwc Hclock.
  destruct (run_tracked key calls T0 [] empty_stores) as [Htr Hrl];
    [done|apply empty_bounded| |apply rate_limited_nil|done|].
  { split_and!; [constructor|apply sublist_nil_l|].
    intros b. unfold empty_stores. simpl. by rewrite lookup_empty. }
  simpl in Htr, Hrl. split; [intros a; pose proof (Hrl a); lia|].
  intros T HT. apply (tracked_mono _ _ T) in Htr; [|done].
  destruct Htr as (_ & Hsub & _). apply sublist_length in Hsub.
  pose proof (window_bounded key (run c calls empty_stores).1
                (run_bounded c calls empty_stores (empty_bounded c))). lia.
Qed.

(** *** What a cooldown record says about the window record *)

Lemma empty_blocked_full : blocked_full c empty_stores.
Proof. intros k b. unfold empty_stores. simpl. by rewrite lookup_empty. Qed.

Lemma forget_blocked_full key st : blocked_full c st → blocked_full c (forget key st).
Proof.
  intros Hf k b. unfold forget. simpl. intros Hb.
  apply lookup_delete_Some in Hb as [Hne Hb].
  rewrite lookup_delete_ne by done. exact (Hf k b Hb).
Qed.

Lemma evaluate_blocked_full key now st :
  bounded c st → blocked_full c st → cooldownStore st !! key = None →
  blocked_full c (evaluate c key now st).1.
Proof.
  intros Hb Hf Hcs k b. rewrite evaluate_no_cooldown by done. cbv zeta.
  case_decide as Hlen; simpl.
  - destruct (decide (k = key)) as [->|Hne].
    + intros _. exists (window key st). split.
      * unfold window. destruct (requestStore st !! key) eqn:E; [done|].
        by rewrite lookup_insert_eq.
      * pose proof (window_bounded key st Hb).
        pose proof (prune_length c now (window key st)). lia.
    + rewrite lookup_insert_ne by done. intros Hk.
      destruct (Hf k b Hk) as (l & Hl & Hlen'). exists l. split; [|done].
      destruct (requestStore st !! key); [done|]. by rewrite lookup_insert_ne.
  - intros Hk. assert (k ≠ key) by congruence.
    rewrite lookup_insert_ne by done. exact (Hf k b Hk).
Qed.

Lemma rateLimiter_blocked_full req res now st :
  bounded c st → blocked_full c st →
  blocked_full c (rateLimiter c req res now st).1.
Proof.
  intros Hb Hf.
  destruct (rateLimiter_cases c req res now st)
    as [[_ ->]|[[_ (b & _ & _ & ->)]|[[_ (b & _ & _ & ->)]|(_ & Hcs & ->)]]];
    simpl; [done|done| |by apply evaluate_blocked_full].
  apply evaluate_blocked_full;
    [by apply forget_bounded|by apply forget_blocked_full|apply forget_cooldown].
Qed.

Lemma run_blocked_full calls st :
  bounded c st → blocked_full c st →
  blocked_full c (run c calls st).1.
Proof.
  revert st. induction calls as [|[[req res] now] calls IH]; intros st Hb Hf; [done|].
  rewrite run_cons. simpl.
  apply IH; [by apply rateLimiter_bounded|by apply rateLimiter_blocked_full].
Qed.

(** X6. For an integer [max]: in every state the closure can reach, a key
    that holds a cooldown record also holds a window record, and that
    record has exactly [max] timestamps (none when [max] is negative): a
    key is only ever blocked with a full window. *)
Theorem blocked_key_has_full_window st k blockedUntil :
  reachable c st →
  cooldownStore st !! k = Some blockedUntil →
  ∃ l, requestStore st !! k = Some l ∧ Z.of_nat (length l) = Z.max 0 (max c).
Proof.
  intros [calls ->]. apply run_blocked_full; [apply empty_bounded|apply empty_blocked_full].
Qed.

(** *** Records are never reclaimed *)

Lemma evaluate_key_present key now st :
  is_Some (requestStore (evaluate c key now st).1 !! key).
Proof.
  unfold evaluate. cbv zeta. case_decide; simpl.
  - destruct (requestStore st !! key) eqn:E; [by rewrite E|].
    by rewrite lookup_insert_eq.
  - by rewrite lookup_insert_eq.
Qed.

Lemma rateLimiter_keeps_keys req res now st k :
  is_Some (requestStore st !! k) →
  is_Some (requestStore (rateLimiter c req res now st).1 !! k).
Proof.
  intros Hk.
  destruct (decide (k = keyGen c req)) as [->|Hne].
  - destruct (rateLimiter_cases c req res now st)
      as [[_ ->]|[[_ (b & _ & _ & ->)]|[[_ (b & _ & _ & ->)]|(_ & _ & ->)]]];
      simpl; [done|done|apply evaluate_key_present..].
  - by destruct (rateLimiter_other c req res now st k Hne) as [-> _].
Qed.

Lemma run_keeps_keys calls st k :
  is_Some (requestStore st !! k) → is_Some (requestStore (run c calls st).1 !! k).
Proof.
  revert st. induction calls as [|[[req res] now] calls IH]; intros st Hk; [done|].
  rewrite run_cons. simpl. by apply IH, rateLimiter_keeps_keys.
Qed.

Lemma rateLimiter_records_key req res now st :
  blocked_full c st → skip c req res = false →
  is_Some (requestStore (rateLimiter c req res now st).1 !! keyGen c req).
Proof.
  intros Hf Hs.
  destruct (rateLimiter_cases c req res now st)
    as [[? _]|[[_ (b & Hb & _ & ->)]|[[_ (b & _ & _ & ->)]|(_ & _ & ->)]]];
    simpl; [congruence| |apply evaluate_key_present..].
  destruct (Hf _ _ Hb) as (l & -> & _). done.
Qed.

(** X7. The window store is never cleaned up.  After any sequence of calls
    made from the two empty maps, [requestStore] holds a record for the
    key of every call of the sequence that was not bypassed, however long
    ago the call was; and a record that exists survives every later
    call. *)
Theorem window_records_are_never_reclaimed calls :
  (∀ call, call ∈ calls → skip c call.1.1 call.1.2 = false →
     is_Some (requestStore (run c calls empty_stores).1 !! keyGen c call.1.1))
  ∧ (∀ st k, is_Some (requestStore st !! k) →
       is_Some (requestStore (run c calls st).1 !! k)).
Proof.
  split.
  - intros [[req res] now] Hin Hs. simpl in *.
    apply list_elem_of_split in Hin as (l1 & l2 & ->).
    rewrite run_app. cbn [fst]. rewrite run_cons. cbn [fst].
    apply run_keeps_keys, rateLimiter_records_key; [|done].
    apply run_blocked_full; [apply empty_bounded|apply empty_blocked_full].
  - intros st k. apply run_keeps_keys.
Qed.

(** *** Order of the stored timestamps *)

Lemma prune_sorted now l : StronglySorted Z.le l → StronglySorted Z.le (prune c now l).
Proof.
  unfold prune. induction 1 as [|t l _ IH Ht]; [constructor|].
  rewrite filter_cons. case_decide; [|done].
  constructor; [done|]. apply Forall_forall. intros t' Hin.
  apply list_elem_of_filter in Hin as [_ Hin].
  by apply (proj1 (Forall_forall _ _) Ht).
Qed.

(** On a record in non-decreasing order, pruning removes a prefix. *)
Lemma prune_drop now l :
  StronglySorted Z.le l →
  prune c now l = drop (length l - length (prune c now l)) l.
Proof.
  induction 1 as [|t l Hl IH Ht]; [done|].
  destruct (decide (now - t < windowMs c)) as [Hin|Hout].
  - rewrite (prune_all c now (t :: l)).
    + by rewrite Nat.sub_diag.
    + constructor; [done|]. eapply Forall_impl; [exact Ht|]. simpl. intros; lia.
  - unfold prune in *. rewrite filter_cons_False by done.
    pose proof (length_filter (λ ts, now - ts < windowMs c) l) as Hle.
    set (kept := filter (λ ts, now - ts < windowMs c) l) in *.
    cbn [length].
    replace (S (length l) - length kept)%nat with (S (length l - length kept)) by lia.
    simpl. exact IH.
Qed.

Lemma empty_ordered T : ordered T empty_stores.
Proof. intros k l. unfold empty_stores. simpl. by rewrite lookup_empty. Qed.

Lemma ordered_mono T T' st : T ≤ T' → ordered T st → ordered T' st.
Proof.
  intros Hle Ho k l Hl. destruct (Ho k l Hl) as [Hs Hp]. split; [done|].
  eapply Forall_impl; [exact Hp|]. simpl. intros; lia.
Qed.

Lemma forget_ordered key T st : ordered T st → ordered T (forget key st).
Proof.
  intros Ho k l. unfold forget. simpl. intros Hl.
  apply lookup_delete_Some in Hl as [_ Hl]. exact (Ho k l Hl).
Qed.

Lemma evaluate_ordered key now st :
  ordered now st → ordered now (evaluate c key now st).1.
Proof.
  intros Ho k l. unfold evaluate. cbv zeta.
  assert (Hens : ∀ l0,
            match requestStore st !! key with
            | Some _ => requestStore st
            | None => <[key := []]> (requestStore st)
            end !! k = Some l0 →
            StronglySorted Z.le l0 ∧ Forall (λ t, t ≤ now) l0).
  { intros l0. destruct (requestStore st !! key) eqn:E; [apply Ho|].
    destruct (decide (k = key)) as [->|Hne].
    - rewrite lookup_insert_eq. intros [= <-]. split; constructor.
    - rewrite lookup_insert_ne by done. apply Ho. }
  case_decide as Hlen; simpl; [apply Hens|].
  destruct (decide (k = key)) as [->|Hne].
  - rewrite lookup_insert_eq. intros [= <-].
    assert (Hw : StronglySorted Z.le
                   (default [] (match requestStore st !! key with
                                | Some _ => requestStore st
                                | None => <[key := []]> (requestStore st)
                                end !! key))
                 ∧ Forall (λ t, t ≤ now)
                     (default [] (match requestStore st !! key with
                                  | Some _ => requestStore st
                                  | None => <[key := []]> (requestStore st)
                                  end !! key))).
    { destruct (_ !! key) as [l0|] eqn:E; [by apply Hens|]. split; constructor. }
    destruct Hw as [Hs Hp].
    assert (Hp' : Forall (λ t, t ≤ now) (prune c now (default [] (match requestStore st !! key with
                                  | Some _ => requestStore st
                                  | None => <[key := []]> (requestStore st)
                                  end !! key)))).
    { apply Forall_forall. intros t Hin. apply prune_elem in Hin as [_ Hin].
      by apply (proj1 (Forall_forall _ _) Hp). }
    split.
    + apply StronglySorted_app. split_and!.
      * intros t1 t2 Ht1 Ht2. apply list_elem_of_singleton in Ht2 as ->.
        by apply (proj1 (Forall_forall _ _) Hp').
      * by apply prune_sorted.
      * repeat constructor.
    + apply Forall_app. split; [done|]. by constructor.
  - rewrite lookup_insert_ne by done. apply Hens.
Qed.

Lemma rateLimiter_ordered req res now T st :
  T ≤ now → ordered T st → ordered now (rateLimiter c req res now st).1.
Proof.
  intros Hle Ho. apply (ordered_mono T now) in Ho; [|done].
  destruct (rateLimiter_cases c req res now st)
    as [[_ ->]|[[_ (b & _ & _ & ->)]|[[_ (b & _ & _ & ->)]|(_ & _ & ->)]]];
    simpl; [done|done| |by apply evaluate_ordered].
  by apply evaluate_ordered, forget_ordered.
Qed.

Lemma run_ordered calls T st :
  clock_from T calls → ordered T st → ordered (last_time T calls) (run c calls st).1.
Proof.
  revert T st. induction calls as [|[[req res] now] calls IH]; intros T st Hcl Ho; [done|].
  destruct Hcl as [Hle Hcl]. simpl in Hle, Hcl.
  rewrite run_cons. cbn [fst last_time snd].
  by apply IH, (rateLimiter_ordered req res now T).
Qed.

(** X8. When the clock never runs backwards, every window record stored
    after a sequence of calls made from the two empty maps lists its
    timestamps in non-decreasing order, oldest first, and none of them is
    later than the last call. *)
Theorem window_records_in_time_order calls T0 k l :
  clock_from T0 calls →
  requestStore (run c calls empty_stores).1 !! k = Some l →
  StronglySorted Z.le l ∧ Forall (λ t, t ≤ last_time T0 calls) l.
Proof.
  intros Hcl. apply (run_ordered calls T0 empty_stores Hcl (empty_ordered T0)).
Qed.

(** X9. Under the same condition the pruning of line 56 only ever discards
    the oldest entries of a stored record: at any time [now] the pruned
    array is the record without its first [n] entries, [n] being the
    number of entries that left the window. *)
Theorem pruning_discards_the_oldest calls T0 k l now :
  clock_from T0 calls →
  requestStore (run c calls empty_stores).1 !! k = Some l →
  prune c now l = drop (length l - length (prune c now l)) l.
Proof.
  intros Hcl Hl. apply prune_drop.
  by destruct (run_ordered calls T0 empty_stores Hcl (empty_ordered T0) k l Hl).
Qed.

(** *** How long a denial can announce *)

Lemma Math_ceil_mono (r r' : Z) :
  r ≤ r' → Math_ceil (js_div r 1000) ≤ Math_ceil (js_div r' 1000).
Proof.
  intros Hle. rewrite !Math_ceil_div.
  pose proof (Z.div_le_mono (- r') (- r) 1000 ltac:(lia) ltac:(lia)). lia.
Qed.

Lemma empty_capped T : capped c T empty_stores.
Proof. intros k b. unfold empty_stores. simpl. by rewrite lookup_empty. Qed.

Lemma evaluate_capped key now st :
  capped c now st → capped c now (evaluate c key now st).1.
Proof.
  intros Hc k b. unfold evaluate. cbv zeta. case_decide; simpl; [|apply Hc].
  destruct (cooldownStore st !! key) eqn:E; [apply Hc|].
  destruct (decide (k = key)) as [->|Hne].
  - rewrite lookup_insert_eq. intros [= <-]. lia.
  - rewrite lookup_insert_ne by done. apply Hc.
Qed.

Lemma rateLimiter_capped req res now T st :
  T ≤ now → capped c T st → capped c now (rateLimiter c req res now st).1.
Proof.
  intros Hle Hc.
  assert (Hc' : capped c now st).
  { intros k b Hb. pose proof (Hc k b Hb). lia. }
  destruct (rateLimiter_cases c req res now st)
    as [[_ ->]|[[_ (b & _ & _ & ->)]|[[_ (b & _ & _ & ->)]|(_ & _ & ->)]]];
    simpl; [done|done| |by apply evaluate_capped].
  apply evaluate_capped. intros k b0. unfold forget. simpl. intros Hb0.
  apply lookup_delete_Some in Hb0 as [_ Hb0]. exact (Hc' k b0 Hb0).
Qed.

Lemma run_capped calls T st :
  clock_from T calls → capped c T st → capped c (last_time T calls) (run c calls st).1.
Proof.
  revert T st. induction calls as [|[[req res] now] calls IH]; intros T st Hcl Hc; [done|].
  destruct Hcl as [Hle Hcl]. simpl in Hle, Hcl.
  rewrite run_cons. cbn [fst last_time snd].
  by apply IH, (rateLimiter_capped req res now T).
Qed.

(** What a denial tells about the stores it leaves. *)
Lemma denied_cases req res now st code body :
  (rateLimiter c req res now st).2 = Json code body →
  skip c req res = false
  ∧ ∃ b, cooldownStore (rateLimiter c req res now st).1 !! keyGen c req = Some b
         ∧ remainingTime body = Math_ceil (js_div (b - now) 1000)
         ∧ (cooldownStore st !! keyGen c req = Some b ∧ now < b
            ∨ ¬ cooling (keyGen c req) now st ∧ b = now + cooldownMs c).
Proof.
  destruct (rateLimiter_cases c req res now st)
    as [[_ ->]|[[Hs (b & Hb & Hlt & ->)]|[[Hs (b & Hb & Hle & ->)]|(Hs & Hb & ->)]]];
    simpl.
  - done.
  - intros [= <- <-]. split; [done|]. exists b. simpl. split_and!; [done|done|by left].
  - rewrite evaluate_no_cooldown by apply forget_cooldown. cbv zeta.
    case_decide; simpl; [|done].
    intros [= <- <-]. split; [done|]. exists (now + cooldownMs c). simpl.
    rewrite lookup_insert_eq. split_and!; [done|f_equal; f_equal; lia|].
    right. split; [|done]. intros (b' & Hb' & Hlt). simplify_eq. lia.
  - rewrite evaluate_no_cooldown by done. cbv zeta.
    case_decide; simpl; [|done].
    intros [= <- <-]. split; [done|]. exists (now + cooldownMs c). simpl.
    rewrite lookup_insert_eq. split_and!; [done|f_equal; f_equal; lia|].
    right. split; [|done]. intros (b' & Hb' & Hlt). congruence.
Qed.

(** X10. When the clock never runs backwards, no denial announces more than
    the configured cooldown: after any sequence of calls made from the two
    empty maps, the [remainingTime] of a denial is at most
    [Math.ceil(cooldownMs / 1000)]. *)
Theorem remaining_time_at_most_cooldown calls T0 req res now code body :
  clock_from T0 calls →
  last_time T0 calls ≤ now →
  (rateLimiter c req res now (run c calls empty_stores).1).2 = Json code body →
  remainingTime body ≤ Math_ceil (js_div (cooldownMs c) 1000).
Proof.
  intros Hcl Hlast Hden.
  pose proof (run_capped calls T0 empty_stores Hcl (empty_capped T0)) as Hcap.
  destruct (denied_cases _ _ _ _ _ _ Hden) as (_ & b & _ & -> & [[Hb _]|[_ ->]]).
  - apply Math_ceil_mono. pose proof (Hcap _ _ Hb). lia.
  - apply Math_ceil_mono. lia.
Qed.

(** *** How long a key stays blocked *)

(** While the cooldown record of [key] lies after every call that counts
    for it, those calls are all denied and the records of [key] stay. *)
Lemma run_cooling key b calls st :
  cooldownStore st !! key = Some b →
  Forall (λ call, concerns c key call → call.2 < b) calls →
  Forall (λ o, is_denied o = true) (answers c key calls st)
  ∧ same_records key (run c calls st).1 st.
Proof.
  revert st. induction calls as [|[[req res] now] calls IH]; intros st Hb Hall.
  - split; [constructor|apply same_records_refl].
  - apply Forall_cons in Hall as [Hhd Htl]. rewrite run_cons. cbn [answers fst snd].
    destruct (decide (concerns c key (req, res, now))) as [Hc|Hn].
    + specialize (Hhd Hc). destruct Hc as [Hs Hk]. simpl in Hs, Hk, Hhd. subst key.
      destruct (rateLimiter_cooling c req res now st b Hb Hhd) as [Hst Ho].
      rewrite Hst, (Ho Hs). destruct (IH st Hb Htl) as [IHa IHs].
      split; [|done]. simpl. by constructor.
    + pose proof (rateLimiter_unconcerned key (req, res, now) st Hn) as Hsame.
      simpl in Hsame.
      destruct (IH (rateLimiter c req res now st).1) as [IHa IHs]; [|done|].
      * destruct Hsame as [_ ->]. done.
      * split; [done|]. by eapply same_records_trans.
Qed.

(** A call that counts for a key whose cooldown record has passed is
    allowed when [max >= 1], and restarts the window. *)
Lemma rateLimiter_expired req res now st b :
  1 ≤ max c → skip c req res = false →
  cooldownStore st !! keyGen c req = Some b → b ≤ now →
  rateLimiter c req res now st
  = (mkStores (<[keyGen c req := [now]]> (delete (keyGen c req) (requestStore st)))
              (delete (keyGen c req) (cooldownStore st)),
     Next).
Proof.
  intros Hmax Hs Hb Hle. unfold rateLimiter. rewrite Hs, Hb. cbv zeta.
  case_decide; [lia|]. fold (forget (keyGen c req) st).
  rewrite evaluate_no_cooldown by apply forget_cooldown. cbv zeta.
  rewrite forget_window, prune_nil. simpl. case_decide; [lia|done].
Qed.

(** X11. A key stays blocked for exactly [cooldownMs].  Let a call at [now]
    be denied without a cooldown running (the threshold was reached).
    Then every later call that counts for the key before
    [now + cooldownMs] is denied, whatever other calls come in between,
    and the key's records do not change; with [max >= 1] the first call
    for the key at or after [now + cooldownMs] is passed on and leaves the
    window record [[t]] and no cooldown record. *)
Theorem blocked_for_exactly_cooldownMs req res now st calls :
  skip c req res = false →
  ¬ cooling (keyGen c req) now st →
  is_denied (rateLimiter c req res now st).2 = true →
  Forall (λ call, concerns c (keyGen c req) call → call.2 < now + cooldownMs c) calls →
  let key := keyGen c req in
  let st1 := (rateLimiter c req res now st).1 in
  cooldownStore st1 !! key = Some (now + cooldownMs c)
  ∧ Forall (λ o, is_denied o = true) (answers c key calls st1)
  ∧ same_records key (run c calls st1).1 st1
  ∧ (1 ≤ max c → ∀ req' res' t,
       concerns c key (req', res', t) → now + cooldownMs c ≤ t →
       (rateLimiter c req' res' t (run c calls st1).1).2 = Next
       ∧ requestStore (rateLimiter c req' res' t (run c calls st1).1).1 !! key
         = Some [t]
       ∧ cooldownStore (rateLimiter c req' res' t (run c calls st1).1).1 !! key
         = None).
Proof.
  intros Hs Hnc Hden Hall key st1.
  assert (Hb : cooldownStore st1 !! key = Some (now + cooldownMs c)).
  { destruct (rateLimiter c req res now st).2 as [|code body] eqn:Ho; [done|].
    destruct (denied_cases _ _ _ _ _ _ Ho) as (_ & b & Hb & _ & [[Hb' Hlt]|[_ ->]]).
    - destruct Hnc. by exists b.
    - exact Hb. }
  destruct (run_cooling key _ calls st1 Hb Hall) as [Hans Hsame].
  split_and!; [done..|].
  intros Hmax req' res' t [Hs' Hk'] Ht. simpl in Hs', Hk'.
  assert (Hb2 : cooldownStore (run c calls st1).1 !! keyGen c req'
                = Some (now + cooldownMs c)).
  { rewrite Hk'. destruct Hsame as [_ ->]. done. }
  rewrite (rateLimiter_expired req' res' t _ _ Hmax Hs' Hb2 Ht). simpl.
  rewrite <- Hk'. by rewrite lookup_insert_eq, lookup_delete_eq.
Qed.

(** X12. [remainingTime] is the right number of seconds to wait.  After a
    denial at [now] that announces [remainingTime = r], a call for the
    same key up to [now + 1000 * (r - 1)] is still denied, and with
    [max >= 1] a call at or after [now + 1000 * r] is passed on. *)
Theorem retry_after_remaining_time req res now st code body :
  (rateLimiter c req res now st).2 = Json code body →
  let key := keyGen c req in
  let st1 := (rateLimiter c req res now st).1 in
  (∀ req' res' t,
     concerns c key (req', res', t) → t ≤ now + 1000 * (remainingTime body - 1) →
     is_denied (rateLimiter c req' res' t st1).2 = true)
  ∧ (1 ≤ max c → ∀ req' res' t,
       concerns c key (req', res', t) → now + 1000 * remainingTime body ≤ t →
       (rateLimiter c req' res' t st1).2 = Next).
Proof.
  intros Hden key st1.
  destruct (denied_cases _ _ _ _ _ _ Hden) as (_ & b & Hb & Hr & _).
  pose proof (Math_ceil_least (b - now)) as Hceil. cbv zeta in Hceil.
  rewrite <- Hr in Hceil. fold key st1 in Hb. split.
  - intros req' res' t [Hs' Hk'] Ht. simpl in Hs', Hk'. rewrite <- Hk' in Hb.
    destruct (rateLimiter_cooling c req' res' t st1 b Hb ltac:(lia)) as [_ Ho].
    by rewrite (Ho Hs').
  - intros Hmax req' res' t [Hs' Hk'] Ht. simpl in Hs', Hk'. rewrite <- Hk' in Hb.
    by rewrite (rateLimiter_expired req' res' t st1 b Hmax Hs' Hb ltac:(lia)).
Qed.

(** *** What the window record holds *)

(** Lines 54-75 and the whole call keep the stored record of [key] a
    sublist of the accepted requests of [key]. *)
Lemma recorded_step key hist req res now st :
  window key st `sublist_of` hist →
  window key (rateLimiter c req res now st).1
  `sublist_of`
  hist ++ if decide (concerns c key (req, res, now)
                     ∧ is_denied (rateLimiter c req res now st).2 = false)
          then [now] else [].
Proof.
  intros Hsub.
  destruct (decide (concerns c key (req, res, now))) as [Hc|Hn].
  - destruct Hc as [Hs Hk]. simpl in Hs, Hk. subst key.
    assert (Hev : ∀ st0, cooldownStore st0 !! keyGen c req = None →
              window (keyGen c req) st0 `sublist_of` hist →
              window (keyGen c req) (evaluate c (keyGen c req) now st0).1
              `sublist_of`
              hist ++ if decide (concerns c (keyGen c req) (req, res, now)
                          ∧ is_denied (evaluate c (keyGen c req) now st0).2 = false)
                      then [now] else []).
    { intros st0 Hcs Hsub0. rewrite evaluate_no_cooldown by done. cbv zeta.
      case_decide as Hlen; cbn [fst snd is_denied deny].
      - rewrite decide_False by (intros [_ ?]; done). rewrite app_nil_r.
        unfold window in *. simpl.
        destruct (requestStore st0 !! keyGen c req) eqn:E; [by rewrite E|].
        by rewrite lookup_insert_eq.
      - rewrite decide_True by (by repeat split).
        unfold window at 1. simpl. rewrite lookup_insert_eq. simpl.
        apply sublist_app; [|done].
        etrans; [|exact Hsub0]. unfold prune. apply sublist_filter. }
    destruct (rateLimiter_cases c req res now st)
      as [[? _]|[[_ (b & Hb & Hlt & ->)]|[[_ (b & Hb & Hexp & ->)]|(_ & Hb & ->)]]].
    + congruence.
    + cbn [fst snd is_denied deny]. rewrite decide_False by (intros [_ ?]; done).
      by rewrite app_nil_r.
    + apply Hev; [apply forget_cooldown|]. rewrite forget_window. apply sublist_nil_l.
    + by apply Hev.
  - rewrite decide_False by (intros [? _]; done). rewrite app_nil_r.
    pose proof (rateLimiter_unconcerned key (req, res, now) st Hn) as Hsame.
    simpl in Hsame. by rewrite (same_records_window key _ st Hsame).
Qed.

Lemma run_recorded key calls hist st :
  window key st `sublist_of` hist →
  window key (run c calls st).1 `sublist_of` hist ++ allowed_times c key calls st.
Proof.
  revert hist st. induction calls as [|[[req res] now] calls IH]; intros hist st Hsub.
  - simpl. by rewrite app_nil_r.
  - rewrite run_cons. cbn [allowed_times fst snd]. rewrite app_assoc.
    apply IH. by apply recorded_step.
Qed.

Lemma recorded_from_empty key calls :
  window key (run c calls empty_stores).1
  `sublist_of` allowed_times c key calls empty_stores.
Proof. apply (run_recorded key calls [] empty_stores). apply sublist_nil_l. Qed.

(** X3. Only accepted requests are recorded.  After any sequence of calls
    made from the two empty maps, the window record of a key lists, in the
    order they were accepted, timestamps of calls for that key that were
    not bypassed and were passed on with [next()]: a denied or a bypassed
    request never leaves a timestamp. *)
Theorem window_records_only_accepted_requests key calls :
  window key (run c calls empty_stores).1
  `sublist_of` allowed_times c key calls empty_stores.
Proof. apply recorded_from_empty. Qed.



End Sequences.

(** ** The limiter built from the default options *)

Section Defaults.

Context {Request Response : Type}.
Variable ip : Request → string.

(** X13. The defaults of [createExpressLimiter].  A limiter built from an
    options object that sets none of [max], [windowMs], [cooldownMs],
    [message], [statusCode], [keyGen] and [skip] starts from two empty
    maps, keys requests by [req.ip] and bypasses none: one hundred requests
    from one address within a minute are all passed on, and a further one
    in that minute is answered with status 429, the default message and
    [remainingTime] 60. *)
Theorem default_limiter_allows_100_per_minute
    (fw : JsValue) (calls : list (Request * Response * Z)) (key : string)
    (t0 : Z) (req : Request) (res : Response) (now : Z) :
  let options := mkOptionsObj fw None None None None None None None in
  let limiter := createExpressLimiter ip options in
  length calls = 100%nat →
  Forall (λ call, ip call.1.1 = key ∧ t0 ≤ call.2 ∧ call.2 - t0 < 60000) calls →
  ip req = key → t0 ≤ now → now - t0 < 60000 →
  initial limiter = empty_stores
  ∧ Forall (λ o, o = Next) (run (destructure ip options) calls (initial limiter)).2
  ∧ (middleware limiter req res now
       (run (destructure ip options) calls (initial limiter)).1).2
    = Json 429 {| status := 429;
                  body_message := "Rate limit exceeded. Please try again later.";
                  remainingTime := 60 |}.
Proof.
  intros options limiter Hlen Hall Hreq Hge Hlt.
  set (c0 := destructure ip options).
  assert (Hconcern : Forall (λ call, skip c0 call.1.1 call.1.2 = false
                                     ∧ keyGen c0 call.1.1 = key) calls).
  { eapply Forall_impl; [exact Hall|]. simpl. intros call (Hk & _). by split. }
  assert (Htimes : Forall (λ call, t0 ≤ call.2 ∧ call.2 - t0 < windowMs c0) calls).
  { eapply Forall_impl; [exact Hall|]. simpl. intros call (_ & ? & ?). by split. }
  assert (Hw0 : window key empty_stores = []) by done.
  destruct (run_below_max c0 key calls empty_stores) as [Hos Hcs];
    [done|done|rewrite Hw0, Hlen; simpl; lia|].
  pose proof (run_in_window c0 key t0 calls empty_stores Hconcern Htimes eq_refl)
    as Hwin.
  rewrite Hw0 in Hwin. simpl in Hwin.
  specialize (Hwin ltac:(constructor) ltac:(rewrite Hlen; simpl; lia)).
  split_and!; [done|exact Hos|].
  change (middleware limiter) with (rateLimiter c0).
  change (initial limiter) with empty_stores.
  assert (Hkey : keyGen c0 req = key) by exact Hreq.
  destruct (rateLimiter_blocks c0 req res now (run c0 calls empty_stores).1) as [-> _];
    [done|by rewrite Hkey| |done].
  rewrite Hkey, Hwin, prune_all.
  - rewrite length_fmap, Hlen. simpl. lia.
  - apply Forall_fmap. eapply Forall_impl; [exact Htimes|].
    simpl. intros call [? ?]. change (windowMs c0) with 60000. lia.
Qed.

End Defaults.

(** ** Further examples *)

(** With a cooldown shorter than the window the reset on expiry lets a
    second request through within one window although [max = 1]. *)
Example short_cooldown_exceeds_max :
  allowed_times short_cooldown_config "K" (at_times "K" [0; 5; 15]) empty_stores
  = [0; 15]
  ∧ (run short_cooldown_config (at_times "K" [0; 5; 15]) empty_stores).2
    = [Next; deny short_cooldown_config 10; Next].
Proof. split; reflexivity. Qed.

(** ** The sequence theorems at concrete inputs *)

Lemma at_most_max_allowed_per_window_witness :
  0 ≤ max scenario_config
  ∧ windowMs scenario_config ≤ cooldownMs scenario_config
  ∧ clock_from 0 (at_times "K" [0; 100; 200; 300; 1000; 2500])
  ∧ Z.of_nat (length (within scenario_config 0
                        (allowed_times scenario_config "K"
                           (at_times "K" [0; 100; 200; 300; 1000; 2500]) empty_stores)))
    ≤ max scenario_config.
Proof.
  assert (Hclock : clock_from 0 (at_times "K" [0; 100; 200; 300; 1000; 2500])).
  { unfold at_times. simpl. repeat split; lia. }
  split_and!; [simpl; lia|simpl; lia|exact Hclock|].
  apply (at_most_max_allowed_per_window scenario_config "K"
           (at_times "K" [0; 100; 200; 300; 1000; 2500]) 0);
    [simpl; lia|simpl; lia|exact Hclock].
Defined.

Lemma blocked_key_has_full_window_witness :
  reachable scenario_config scenario_blocked
  ∧ cooldownStore scenario_blocked !! "K" = Some 2300
  ∧ ∃ l, requestStore scenario_blocked !! "K" = Some l
         ∧ Z.of_nat (length l) = Z.max 0 (max scenario_config).
Proof.
  assert (Hreach : reachable scenario_config scenario_blocked).
  { exists (at_times "K" [0; 100; 200; 300]). reflexivity. }
  split_and!; [exact Hreach|reflexivity|].
  apply (blocked_key_has_full_window scenario_config scenario_blocked "K" 2300 Hreach).
  reflexivity.
Defined.

Lemma window_records_in_time_order_witness :
  clock_from 0 (at_times "K" [0; 100; 200; 300])
  ∧ requestStore (run scenario_config (at_times "K" [0; 100; 200; 300]) empty_stores).1
      !! "K" = Some [0; 100; 200]
  ∧ StronglySorted Z.le [0; 100; 200]
  ∧ Forall (λ t, t ≤ last_time 0 (at_times "K" [0; 100; 200; 300])) [0; 100; 200].
Proof.
  assert (Hclock : clock_from 0 (at_times "K" [0; 100; 200; 300])).
  { unfold at_times. simpl. repeat split; lia. }
  split_and!; [exact Hclock|reflexivity|..];
    apply (window_records_in_time_order scenario_config
             (at_times "K" [0; 100; 200; 300]) 0 "K" [0; 100; 200] Hclock eq_refl).
Defined.

Lemma pruning_discards_the_oldest_witness :
  clock_from 0 (at_times "K" [0; 600])
  ∧ requestStore (run scenario_config (at_times "K" [0; 600]) empty_stores).1 !! "K"
    = Some [0; 600]
  ∧ prune scenario_config 1100 [0; 600]
    = drop (length [0; 600] - length (prune scenario_config 1100 [0; 600])) [0; 600].
Proof.
  assert (Hclock : clock_from 0 (at_times "K" [0; 600])).
  { unfold at_times. simpl. repeat split; lia. }
  split_and!; [exact Hclock|reflexivity|].
  apply (pruning_discards_the_oldest scenario_config (at_times "K" [0; 600]) 0 "K"
           [0; 600] 1100 Hclock eq_refl).
Defined.

Lemma remaining_time_at_most_cooldown_witness :
  clock_from 0 (at_times "K" [0; 100; 200; 300])
  ∧ last_time 0 (at_times "K" [0; 100; 200; 300]) ≤ 1000
  ∧ (rateLimiter scenario_config "K" tt 1000
       (run scenario_config (at_times "K" [0; 100; 200; 300]) empty_stores).1).2
    = Json 429 {| status := 429;
                  body_message := "Rate limit exceeded. Please try again later.";
                  remainingTime := 2 |}
  ∧ 2 ≤ Math_ceil (js_div (cooldownMs scenario_config) 1000).
Proof.
  assert (Hclock : clock_from 0 (at_times "K" [0; 100; 200; 300])).
  { unfold at_times. simpl. repeat split; lia. }
  split_and!; [exact Hclock|simpl; lia|reflexivity|].
  apply (remaining_time_at_most_cooldown scenario_config
           (at_times "K" [0; 100; 200; 300]) 0 "K" tt 1000 429
           {| status := 429;
              body_message := "Rate limit exceeded. Please try again later.";
              remainingTime := 2 |} Hclock);
    [simpl; lia|reflexivity].
Defined.

Lemma blocked_for_exactly_cooldownMs_witness :
  skip scenario_config "K" tt = false
  ∧ ¬ cooling "K" 300 scenario_full
  ∧ is_denied (rateLimiter scenario_config "K" tt 300 scenario_full).2 = true
  ∧ Forall (λ o, is_denied o = true)
      (answers scenario_config "K" [("K", tt, 1000); ("A", tt, 1200); ("K", tt, 2299)]
         (rateLimiter scenario_config "K" tt 300 scenario_full).1)
  ∧ (rateLimiter scenario_config "K" tt 2300
       (run scenario_config [("K", tt, 1000); ("A", tt, 1200); ("K", tt, 2299)]
          (rateLimiter scenario_config "K" tt 300 scenario_full).1).1).2 = Next.
Proof.
  assert (Hcool : ¬ cooling "K" 300 scenario_full).
  { intros (b & Hb & _). discriminate Hb. }
  destruct (blocked_for_exactly_cooldownMs scenario_config "K" tt 300 scenario_full
              [("K", tt, 1000); ("A", tt, 1200); ("K", tt, 2299)])
    as (_ & Hdenied & _ & Hafter); [reflexivity|exact Hcool|reflexivity| |].
  { repeat constructor; simpl; intros _; lia. }
  split_and!; [reflexivity|exact Hcool|reflexivity|exact Hdenied|].
  apply (Hafter ltac:(simpl; lia) "K" tt 2300); [by split|simpl; lia].
Defined.

Lemma retry_after_remaining_time_witness :
  (rateLimiter scenario_config "K" tt 1000 scenario_blocked).2
  = Json 429 {| status := 429;
                body_message := "Rate limit exceeded. Please try again later.";
                remainingTime := 2 |}
  ∧ is_denied (rateLimiter scenario_config "K" tt 2000
                 (rateLimiter scenario_config "K" tt 1000 scenario_blocked).1).2 = true
  ∧ (rateLimiter scenario_config "K" tt 3000
       (rateLimiter scenario_config "K" tt 1000 scenario_blocked).1).2 = Next.
Proof.
  destruct (retry_after_remaining_time scenario_config "K" tt 1000 scenario_blocked 429
              {| status := 429;
                 body_message := "Rate limit exceeded. Please try again later.";
                 remainingTime := 2 |})
    as [Hbefore Hafter]; [reflexivity|].
  split_and!; [reflexivity| |].
  - apply (Hbefore "K" tt 2000); [by split|simpl; lia].
  - apply (Hafter ltac:(simpl; lia) "K" tt 3000); [by split|simpl; lia].
Defined.

Lemma default_limiter_allows_100_per_minute_witness :
  length hundred_requests = 100%nat
  ∧ Forall (λ call : string * unit * Z,
              call.1.1 = "10.0.0.7" ∧ 0 ≤ call.2 ∧ call.2 - 0 < 60000)
           hundred_requests
  ∧ Forall (λ o, o = Next)
      (run (destructure id (bare_options (JsString "express"))) hundred_requests
         empty_stores).2
  ∧ (rateLimiter (destructure id (bare_options (JsString "express"))) "10.0.0.7" tt 59999
       (run (destructure id (bare_options (JsString "express"))) hundred_requests
          empty_stores).1).2
    = Json 429 {| status := 429;
                  body_message := "Rate limit exceeded. Please try again later.";
                  remainingTime := 60 |}.
Proof.
  assert (Hall : Forall (λ call : string * unit * Z,
                           call.1.1 = "10.0.0.7" ∧ 0 ≤ call.2 ∧ call.2 - 0 < 60000)
                        hundred_requests).
  { unfold hundred_requests. apply Forall_fmap, Forall_forall. intros i Hi.
    apply elem_of_seqZ in Hi. simpl. split; [reflexivity|lia]. }
  destruct (default_limiter_allows_100_per_minute id (JsString "express")
              hundred_requests "10.0.0.7" 0 "10.0.0.7" tt 59999)
    as (_ & Hallowed & Hdenied); [reflexivity|exact Hall|reflexivity|lia|lia|].
  split_and!; [reflexivity|exact Hall|exact Hallowed|exact Hdenied].
Defined.


(** ** Thresholds that are not integers *)

Section Thresholds.

Context {Request Response : Type}.
Variable c : @Config Request Response.

Implicit Types (req : Request) (res : Response) (now : Z) (st : Stores).
Implicit Types (key : string) (calls : list (Request * Response * Z)) (q : Q).

(** An integer is at least [q] exactly when it is at least [Math.ceil(q)]. *)
Lemma Qle_bool_ceiling q (n : Z) :
  Qle_bool q (inject_Z n) = true ↔ Qceiling q ≤ n.
Proof.
  rewrite Qle_bool_iff. split.
  - intros Hle. apply Qceiling_resp_le in Hle. by rewrite Qceiling_Z in Hle.
  - intros Hle. eapply Qle_trans; [apply Qle_ceiling|]. by rewrite <- Zle_Qle.
Qed.

(** With the threshold [q] the code behaves as with the integer threshold
    [Math.ceil(q)]. *)
Lemma evaluate_num_ceiling q key now st :
  evaluate_num c q key now st = evaluate (with_max c (Qceiling q)) key now st.
Proof.
  unfold evaluate_num, evaluate. cbv zeta.
  change (max (with_max c (Qceiling q))) with (Qceiling q).
  change (prune (with_max c (Qceiling q))) with (prune c).
  change (deny (with_max c (Qceiling q))) with (deny c).
  change (cooldownMs (with_max c (Qceiling q))) with (cooldownMs c).
  destruct (Qle_bool q _) eqn:E; case_decide as Hd; try reflexivity.
  - apply Qle_bool_ceiling in E. done.
  - apply Qle_bool_ceiling in Hd. congruence.
Qed.

Lemma rateLimiter_num_ceiling q req res now st :
  rateLimiter_num c q req res now st
  = rateLimiter (with_max c (Qceiling q)) req res now st.
Proof.
  unfold rateLimiter_num, rateLimiter.
  change (skip (with_max c (Qceiling q))) with (skip c).
  change (keyGen (with_max c (Qceiling q))) with (keyGen c).
  destruct (skip c req res); [done|]. cbv zeta.
  destruct (cooldownStore st !! keyGen c req) as [b|].
  - case_decide; [reflexivity|apply evaluate_num_ceiling].
  - apply evaluate_num_ceiling.
Qed.

Lemma run_num_ceiling q calls st :
  run_num c q calls st = run (with_max c (Qceiling q)) calls st.
Proof.
  revert st. induction calls as [|[[req res] now] calls IH]; intros st; [done|].
  simpl. rewrite rateLimiter_num_ceiling.
  destruct (rateLimiter _ req res now st) as [st1 o]. by rewrite IH.
Qed.

(** On an integer threshold the two middlewares are the same function. *)
Lemma rateLimiter_num_integer req res now st :
  rateLimiter_num c (inject_Z (max c)) req res now st = rateLimiter c req res now st.
Proof.
  rewrite rateLimiter_num_ceiling, Qceiling_Z. by destruct c.
Qed.

(** Whatever number [max] is, a stored window never holds more than
    [Math.ceil(max)] timestamps (none when that is negative). *)
Lemma run_num_bounded q calls k l :
  requestStore (run_num c q calls empty_stores).1 !! k = Some l →
  Z.of_nat (length l) ≤ Z.max 0 (Qceiling q).
Proof.
  rewrite run_num_ceiling. intros Hl.
  exact (run_bounded (with_max c (Qceiling q)) calls empty_stores
           (empty_bounded _) k l Hl).
Qed.

(** C5, for an integer threshold.  When [max] is an integer and
    [max >= 0], then after any sequence of calls made from the two empty
    maps (so after each call of any such sequence) every window record
    stored in [requestStore] holds at most [max] timestamps. *)
Theorem C5_window_bound_integer_max q calls k l :
  Qle 0 q → integral q →
  requestStore (run_num c q calls empty_stores).1 !! k = Some l →
  Qle (inject_Z (Z.of_nat (length l))) q.
Proof.
  intros Hq [m Hm] Hl. pose proof (run_num_bounded q calls k l Hl) as Hlen.
  rewrite Hm in Hq, Hlen |- *. rewrite Qceiling_Z in Hlen.
  change 0%Q with (inject_Z 0) in Hq. rewrite <- Zle_Qle in Hq |- *. lia.
Qed.

End Thresholds.

Lemma C5_window_bound_integer_max_witness :
  Qle 0 (inject_Z 3)
  ∧ integral (inject_Z 3)
  ∧ requestStore (run_num scenario_config (inject_Z 3)
                    (at_times "K" [0; 100; 200; 300]) empty_stores).1 !! "K"
    = Some [0; 100; 200]
  ∧ Qle (inject_Z (Z.of_nat (length [0; 100; 200]))) (inject_Z 3).
Proof.
  assert (Hpos : Qle 0 (inject_Z 3)) by (unfold Qle; simpl; lia).
  assert (Hint : integral (inject_Z 3)) by (exists 3; reflexivity).
  split_and!; [exact Hpos|exact Hint|reflexivity|].
  apply (C5_window_bound_integer_max scenario_config (inject_Z 3)
           (at_times "K" [0; 100; 200; 300]) "K" [0; 100; 200] Hpos Hint).
  reflexivity.
Defined.

(** C5 (as stated) fails for a threshold that is not an integer.  With
    [max = 2.5] ([windowMs = 1000], [cooldownMs = 2000]) the requests at 0,
    100 and 200 are all passed on, because the lengths 0, 1 and 2 are
    below 2.5, and the stored window then holds three timestamps. *)
Lemma C5_fractional_max_stores_more :
  Qle 0 (Qmake 5 2)
  ∧ (run_num scenario_config (Qmake 5 2) (at_times "K" [0; 100; 200]) empty_stores).2
    = [Next; Next; Next]
  ∧ requestStore (run_num scenario_config (Qmake 5 2)
                    (at_times "K" [0; 100; 200]) empty_stores).1 !! "K"
    = Some [0; 100; 200]
  ∧ ¬ Qle (inject_Z (Z.of_nat (length [0; 100; 200]))) (Qmake 5 2).
Proof.
  split_and!; [unfold Qle; simpl; lia|reflexivity|reflexivity|].
  unfold Qle. simpl. lia.
Qed.
